(** * git-lfs [migrate export]: the blob and tree transforms and the command

    A shallow embedding of [commands/command_migrate_export.go].  Go strings
    and byte buffers are byte sequences and are modelled by [string] (a list
    of 8-bit [ascii] characters).  Go functions returning [(T, error)] return
    a [result T]; heap objects reached through pointers ([*tools.OrderedSet])
    live in an explicit store that is threaded through every call, together
    with the object database, the refs and the state of the database handle. *)

From Stdlib Require Import ZArith Ascii String.
From stdpp Require Import base option list strings gmap.

Local Open Scope string_scope.
Local Open Scope list_scope.

(** ** Values *)

(** A Go [error] value, identified with its message. *)
Definition error : Type := string.

(** A Go [(T, error)] return: exactly one of the two is meaningful. *)
Inductive result (A : Type) : Type :=
  | Ok (a : A)
  | Err (e : error).
Arguments Ok {A} a.
Arguments Err {A} e.

(** Object ids are byte strings (the [[]byte] of [odb.TreeEntry.Oid]). *)
Definition oid : Type := string.

(** [odb.Blob]: the contents and their length ([int64]). *)
Record Blob : Type := mkBlob { Contents : string; Size : Z }.

(** [odb.TreeEntry] and [odb.Tree]. *)
Record TreeEntry : Type := mkTreeEntry { Name : string; Filemode : Z; Oid : oid }.
Record Tree : Type := mkTree { Entries : list TreeEntry }.

(** What the object database stores under an id. *)
Inductive object : Type :=
  | ObjBlob (contents : string)
  | ObjTree (entries : list TreeEntry).

(** [filepathfilter.Filter]: the include and the exclude patterns. *)
Record Filter : Type := mkFilter { Include : list string; Exclude : list string }.

(** ** The store *)

(** A [*tools.OrderedSet] is an index into [sets]. *)
Definition ref : Type := nat.

Inductive handle : Type := NotAcquired | Open | Closed.

Inductive event : Type :=
  | EvRewrite            (* the rewrite engine was invoked *)
  | EvCheckout           (* git.Checkout was invoked *)
  | EvFatal (msg : string).

Record state : Type := mkState {
  sets : list (list string);     (* the ordered sets, elements in insertion order *)
  objects : gmap oid object;     (* the object database *)
  refs_updated : bool;           (* have the refs been moved to rewritten history *)
  db_handle : handle;            (* the handle returned by getObjectDatabase *)
  log_closed : bool;             (* l.Close() has run *)
  trace : list event             (* calls to the collaborators, oldest first *)
}.

Definition set_sets (f : list (list string) → list (list string)) (s : state) : state :=
  mkState (f (sets s)) (objects s) (refs_updated s) (db_handle s) (log_closed s) (trace s).
Definition set_objects (f : gmap oid object → gmap oid object) (s : state) : state :=
  mkState (sets s) (f (objects s)) (refs_updated s) (db_handle s) (log_closed s) (trace s).
Definition set_refs_updated (b : bool) (s : state) : state :=
  mkState (sets s) (objects s) b (db_handle s) (log_closed s) (trace s).
Definition set_db_handle (h : handle) (s : state) : state :=
  mkState (sets s) (objects s) (refs_updated s) h (log_closed s) (trace s).
Definition set_log_closed (b : bool) (s : state) : state :=
  mkState (sets s) (objects s) (refs_updated s) (db_handle s) b (trace s).
Definition emit (e : event) (s : state) : state :=
  mkState (sets s) (objects s) (refs_updated s) (db_handle s) (log_closed s) (trace s ++ [e]).

(** ** Computations

    A computation either yields a value or ends the process with an exit
    status and a message; either way it leaves a store behind. *)

Inductive outcome (A : Type) : Type :=
  | Val (a : A)
  | Exit (status : Z) (msg : string).
Arguments Val {A} a.
Arguments Exit {A} status msg.

Definition M (A : Type) : Type := state → outcome A * state.

#[global] Instance M_ret : MRet M := λ A a s, (Val a, s).
#[global] Instance M_bind : MBind M := λ A B f m s,
  match m s with
  | (Val a, s') => f a s'
  | (Exit c msg, s') => (Exit c msg, s')
  end.

(** Go's [for _, x := range l { body }]. *)
Fixpoint range {A : Type} (l : list A) (body : A → M unit) : M unit :=
  match l with
  | [] => mret tt
  | x :: l' => body x ;; range l' body
  end.

(** A run-time panic (nil receiver); no path of the command reaches one. *)
Definition panic {A : Type} (msg : string) : M A := λ s, (Exit 2 msg, s).

(** ** tools.OrderedSet *)

Module OrderedSet.

(** Modelled from the spec: [tools.OrderedSet] is not among the sources.
    "A sequence of unique AttributeLine values; insertion order is
    semantically significant and duplicates are silently suppressed.
    Supports: add, clone (deep, independent copy), union (produce a set
    containing every element of the receiver in its original order,
    followed by every element of the other operand not already present, in
    the other operand's order)." *)
Definition add (i : string) (elems : list string) : list string :=
  if bool_decide (i ∈ elems) then elems else elems ++ [i].

(** Modelled from the spec: union, "every element of the receiver in its
    original order, followed by every element of the other operand not
    already present, in the other operand's order". *)
Definition union (elems other : list string) : list string :=
  foldl (λ acc i, add i acc) elems other.

(** Modelled from the spec: [tools.NewOrderedSet()], a fresh, empty set. *)
Definition New : M ref := λ s,
  (Val (length (sets s)), set_sets (λ h, h ++ [[]]) s).

(** Modelled from the spec: [s.Add(i)] writes its receiver, "duplicates are
    silently suppressed"; it reports whether [i] was new. *)
Definition Add (r : ref) (i : string) : M bool := λ s,
  match sets s !! r with
  | Some elems =>
      if bool_decide (i ∈ elems) then (Val false, s)
      else (Val true, set_sets (λ h, <[r := add i elems]> h) s)
  | None => panic "nil *OrderedSet" s
  end.

(** Modelled from the spec: [s.Clone()], "deep, independent copy". *)
Definition Clone (r : ref) : M ref := λ s,
  match sets s !! r with
  | Some elems => (Val (length (sets s)), set_sets (λ h, h ++ [elems]) s)
  | None => panic "nil *OrderedSet" s
  end.

(** Modelled from the spec: [s.Union(other)] "produces a set": a fresh one,
    neither operand is written. *)
Definition Union (r other : ref) : M ref := λ s,
  match sets s !! r, sets s !! other with
  | Some a, Some b => (Val (length (sets s)), set_sets (λ h, h ++ [union a b]) s)
  | _, _ => panic "nil *OrderedSet" s
  end.

(** Modelled from the spec: [s.Iter()], the elements in insertion order,
    "the order written to the attribute file". *)
Definition Iter (r : ref) : M (list string) := λ s,
  match sets s !! r with
  | Some elems => (Val elems, s)
  | None => panic "nil *OrderedSet" s
  end.

End OrderedSet.

(** The lines of [l] with every repetition of an earlier line (or of a line of
    [seen]) dropped: what the spec calls collapsing duplicate lines. *)
Fixpoint dedup_from (seen l : list string) : list string :=
  match l with
  | [] => []
  | x :: l' =>
      if bool_decide (x ∈ seen) then dedup_from seen l'
      else x :: dedup_from (seen ++ [x]) l'
  end.

Definition dedup_first (l : list string) : list string := dedup_from [] l.

(** The last byte of a string. *)
Fixpoint string_last (s : string) : option ascii :=
  match s with
  | EmptyString => None
  | String c EmptyString => Some c
  | String _ s' => string_last s'
  end.

(** The line feed that ends every line of an attribute file. *)
Definition LF : ascii := "010"%char.

(** Modelled from the spec: the line scanner of [trackedFromAttrs] is not
    among the sources.  "Parse it line-by-line": the contents are cut at every
    line feed, and a final line need not be terminated. *)
Fixpoint lines (s : string) : list string :=
  match s with
  | EmptyString => []
  | String c s' =>
      if bool_decide (c = LF) then EmptyString :: lines s'
      else match lines s' with
           | [] => [String c EmptyString]
           | l :: ls => String c l :: ls
           end
  end.

(** Modelled from the spec: the writer of [trackedToBlob] is not among the
    sources.  "Serialize merged as newline-joined text"; by scenario A every
    line, the last one too, is followed by a line terminator. *)
Fixpoint serialize (ls : list string) : string :=
  match ls with
  | [] => EmptyString
  | l :: ls' => l +:+ String LF (serialize ls')
  end.

(** ** path/filepath.Base, for the separator '/' *)

Fixpoint strip_trailing_slashes (path : string) : string :=
  match path with
  | EmptyString => EmptyString
  | String c rest =>
      match strip_trailing_slashes rest with
      | EmptyString => if bool_decide (c = "/"%char) then EmptyString else String c EmptyString
      | kept => String c kept
      end
  end.

(** The part after the last separator, and whether a separator was met. *)
Fixpoint last_element (path : string) : string * bool :=
  match path with
  | EmptyString => (EmptyString, false)
  | String c rest =>
      let '(tail, found) := last_element rest in
      if found then (tail, true)
      else if bool_decide (c = "/"%char) then (rest, true)
      else (String c tail, false)
  end.

Definition Base (path : string) : string :=
  if bool_decide (path = "") then "."
  else
    let path := fst (last_element (strip_trailing_slashes path)) in
    if bool_decide (path = "") then "/" else path.

(** ** odb.Tree.Merge *)

(** Modelled from the spec: [Merge], a method of [odb.Tree], is not among the
    sources.  "A new tree identical to the input except that its attribute-file entry
    is replaced (or added)": an entry of the same name is replaced where it
    stands, and the entry is appended when no entry has its name. *)
Definition Merge (t : Tree) (e : TreeEntry) : Tree :=
  if existsb (λ x, bool_decide (Name x = Name e)) (Entries t)
  then mkTree (map (λ x, if bool_decide (Name x = Name e) then e else x) (Entries t))
  else mkTree (Entries t ++ [e]).

(** ** The collaborators of one run *)

(** One object met by the rewrite engine during its traversal. *)
Inductive visit : Type :=
  | VisitBlob (path : string) (b : Blob)
  | VisitTree (path : string) (t : Tree).

(** [githistory.RewriteOptions] *)
Record RewriteOptions : Type := mkRewriteOptions {
  optVerbose : bool;
  optObjectMapFilePath : string;
  optBlobFn : string → Blob → M (result Blob);
  optTreeCallbackFn : string → Tree → M (result Tree);
  optUpdateRefs : bool
}.

(** What the surroundings answer during one run of the command. *)
Record world : Type := mkWorld {
  database_error : option error;   (* the error of getObjectDatabase, if any *)
  rewriter_filter : Filter;        (* rewriter.Filter(), from --include/--exclude *)
  traversal : list visit;          (* the objects the engine meets, in its order *)
  bare_answer : bool * option error;  (* the two results of git.IsBare() *)
  checkout_error : option error;   (* the error of git.Checkout, if any *)
  migrateVerbose : bool;
  objectMapFilePath : string
}.

(** The octal literal 0100644: a regular, non-executable file. *)
Definition mode_regular : Z := (1 * 8 ^ 5 + 6 * 8 ^ 2 + 4 * 8 + 4)%Z.

(** The exit status of a fatal error (the spec fixes only that it is not 0). *)
Definition fatal_status : Z := 2%Z.

(** Modelled from the spec: [ExitWithError] is not among the sources.  It
    "terminates immediately with a fatal message and non-zero exit status":
    the process ends at the call, nothing after it runs. *)
Definition ExitWithError {A : Type} (err : error) : M A := λ s,
  (Exit fatal_status err, emit (EvFatal err) s).

(** Go's [defer d] followed by [body]: [d] runs when the function returns.
    A process that is terminated inside [body] never returns, and [d] does
    not run. *)
Definition defer {A : Type} (d : M unit) (body : M A) : M A :=
  a ← body; d ;; mret a.

(** Modelled from the spec: [getObjectDatabase()] is not among the sources;
    "open/close (scoped lifetime)".  It acquires the handle unless it fails. *)
Definition getObjectDatabase (w : world) : M (result unit) := λ s,
  match database_error w with
  | Some e => (Val (Err e), s)
  | None => (Val (Ok tt), set_db_handle Open s)
  end.

(** Modelled from the spec: [db.Close()] releases the handle; [l.Close()]
    closes the logger. *)
Definition db_Close : M unit := λ s, (Val tt, set_db_handle Closed s).
Definition l_Close : M unit := λ s, (Val tt, set_log_closed true s).

(** Modelled from the spec: [git.IsBare()] "reports whether the repository
    has no working tree"; [git.Checkout("", nil, true)] "performs a forced
    checkout".  Neither is among the sources: what they hand back is given by
    the surroundings. *)
Definition IsBare (w : world) : M (bool * option error) := λ s, (Val (bare_answer w), s).
Definition Checkout (w : world) : M (option error) := λ s,
  (Val (checkout_error w), emit EvCheckout s).

(** Modelled from the spec: the engine is entered; the engine moves the refs
    ("update refs on success"). *)
Definition record (e : event) : M unit := λ s, (Val tt, emit e s).
Definition update_refs : M unit := λ s, (Val tt, set_refs_updated true s).

Section MigrateExport.

Set Default Proof Using "Type".

(** [escapeAttrPattern] (defined with the track command) is not among the
    sources; the development holds for every escaping function. *)
Variable escapeAttrPattern : string → string.

(** [smudge(gitfilter, &buf, from, filename, skip, filter)], the content
    filter: the bytes it wrote to the buffer and its error. *)
Variable smudge : string → string → bool → Filter → string * option error.

(** The content-derived id of an object, and the failure (if any) of the
    object database when it is asked to store one. *)
Variable object_id : object → oid.
Variable write_fault : object → option error.

(** Modelled from the spec: the object database is not among the sources.
    "Read blob/tree by id, write new blob/tree, returns new content-derived
    id." *)
Definition WriteObject (o : object) : M (result oid) := λ s,
  match write_fault o with
  | Some e => (Val (Err e), s)
  | None => (Val (Ok (object_id o)), set_objects (λ m, <[object_id o := o]> m) s)
  end.

(** Modelled from the spec: [db.Blob(oid)], "read blob by id"; it fails when
    no blob is stored under the id. *)
Definition ReadBlob (id : oid) : M (result string) := λ s,
  match objects s !! id with
  | Some (ObjBlob contents) => (Val (Ok contents), s)
  | _ => (Val (Err ("git/odb: could not read blob " +:+ id)), s)
  end.

(** [fmt.Sprintf("%s text -filter -merge -diff", escapeAttrPattern(p))] *)
Definition export_line (p : string) : string :=
  escapeAttrPattern p +:+ " text -filter -merge -diff".

(** [fmt.Sprintf("%s filter=lfs diff=lfs merge=lfs -text", escapeAttrPattern(p))] *)
Definition track_line (p : string) : string :=
  escapeAttrPattern p +:+ " filter=lfs diff=lfs merge=lfs -text".

Definition trackedFromExportFilter (filter : Filter) : M ref :=
  tracked ← OrderedSet.New;
  range (Include filter) (λ include,
    OrderedSet.Add tracked (export_line include) ;; mret tt) ;;
  range (Exclude filter) (λ exclude,
    OrderedSet.Add tracked (track_line exclude) ;; mret tt) ;;
  mret tracked.

(** The spec's reading of the builder: one line per include pattern, then
    one line per exclude pattern. *)
Definition canonical_lines (filter : Filter) : list string :=
  map export_line (Include filter) ++ map track_line (Exclude filter).

(** Modelled from the spec: [trackedFromAttrs] is not among the sources.
    "Look up an entry named as the attribute file in tree; if present, read
    its blob content and parse it line-by-line into an OrderedAttributeSet;
    if absent, theirs is empty.  If the existing attribute blob cannot be
    read/parsed, the failure propagates." *)
Definition trackedFromAttrs (t : Tree) : M (result ref) :=
  match find (λ e, bool_decide (Name e = ".gitattributes")) (Entries t) with
  | None => attrs ← OrderedSet.New; mret (Ok attrs)
  | Some e =>
      blob ← ReadBlob (Oid e);
      match blob with
      | Err err => mret (Err err)
      | Ok contents =>
          attrs ← OrderedSet.New;
          range (lines contents) (λ l, OrderedSet.Add attrs l ;; mret tt) ;;
          mret (Ok attrs)
      end
  end.

(** Modelled from the spec: [trackedToBlob] is not among the sources.
    "Serialize merged as newline-joined text, store it as a new blob." *)
Definition trackedToBlob (patterns : ref) : M (result oid) :=
  ls ← OrderedSet.Iter patterns;
  WriteObject (ObjBlob (serialize ls)).

(** The [BlobFn] closure of [migrateExportCommand]; [filter] is
    [rewriter.Filter()]. *)
Definition BlobFn (filter : Filter) (path : string) (b : Blob) : M (result Blob) :=
  if bool_decide (Base path = ".gitattributes") then mret (Ok b)
  else
    let '(buf, err) := smudge (Contents b) path false filter in
    match err with
    | Some e => mret (Err e)
    | None => mret (Ok (mkBlob buf (Z.of_nat (String.length buf))))
    end.

(** The [TreeCallbackFn] closure of [migrateExportCommand]; [tracked] is the
    set built by [trackedFromExportFilter]. *)
Definition TreeCallbackFn (tracked : ref) (path : string) (t : Tree) : M (result Tree) :=
  if negb (bool_decide (path = "/")) then mret (Ok t)
  else
    let ours := tracked in
    theirs ← trackedFromAttrs t;
    match theirs with
    | Err err => mret (Err err)
    | Ok theirs =>
        clone ← OrderedSet.Clone theirs;
        merged ← OrderedSet.Union clone ours;
        blob ← trackedToBlob merged;
        match blob with
        | Err err => mret (Err err)
        | Ok blob => mret (Ok (Merge t (mkTreeEntry ".gitattributes" mode_regular blob)))
        end
    end.

(** Modelled from the spec: the rewrite engine is not among the sources.
    It "invokes them per unique object encountered", commits the objects
    the transforms return, propagates "the first error encountered", and
    "guarantees original refs are untouched unless the whole operation
    succeeds". *)
Definition apply_transform (opts : RewriteOptions) (v : visit) : M (result object) :=
  match v with
  | VisitBlob path b =>
      r ← optBlobFn opts path b;
      match r with
      | Err err => mret (Err err)
      | Ok b' => mret (Ok (ObjBlob (Contents b')))
      end
  | VisitTree path t =>
      r ← optTreeCallbackFn opts path t;
      match r with
      | Err err => mret (Err err)
      | Ok t' => mret (Ok (ObjTree (Entries t')))
      end
  end.

(** Modelled from the spec: the traversal, one object after the other, until
    the first error. *)
Fixpoint rewrite_objects (opts : RewriteOptions) (vs : list visit) : M (result unit) :=
  match vs with
  | [] => mret (Ok tt)
  | v :: vs' =>
      r ← apply_transform opts v;
      match r with
      | Err err => mret (Err err)
      | Ok o =>
          w ← WriteObject o;
          match w with
          | Err err => mret (Err err)
          | Ok _ => rewrite_objects opts vs'
          end
      end
  end.

(** Modelled from the spec: [rewriter.Rewrite(opts)]; the refs move only
    when the whole traversal has succeeded. *)
Definition Rewrite (vs : list visit) (opts : RewriteOptions) : M (result unit) :=
  record EvRewrite ;;
  r ← rewrite_objects opts vs;
  match r with
  | Err err => mret (Err err)
  | Ok _ =>
      (if optUpdateRefs opts then update_refs else mret tt) ;;
      mret (Ok tt)
  end.

(** Modelled from the spec: [migrate] is not among the sources.  "All
    transform-level failures bubble unmodified to the orchestrator, which
    terminates the process with a fatal message." *)
Definition migrate (vs : list visit) (opts : RewriteOptions) : M unit :=
  r ← Rewrite vs opts;
  match r with
  | Err err => ExitWithError err
  | Ok _ => mret tt
  end.

(** [migrateExportCommand].  The logger [l] and the rewriter returned by
    [getHistoryRewriter(cmd, db, l)] are plain values: of the former only its
    closing is kept, of the latter only its filter.  [lfs.NewGitFilter(cfg)]
    is the first argument of [smudge] and is part of that variable. *)
Definition migrateExportCommand (w : world) : M unit :=
  defer l_Close (
    db ← getObjectDatabase w;
    match db with Err err => ExitWithError err | Ok _ => mret tt end ;;
    defer db_Close (
      let filter := rewriter_filter w in
      (if (Z.of_nat (length (Include filter)) <=? 0)%Z
       then ExitWithError "fatal: one or more files must be specified with --include"
       else mret tt) ;;
      tracked ← trackedFromExportFilter filter;
      migrate (traversal w)
        (mkRewriteOptions (migrateVerbose w) (objectMapFilePath w)
           (BlobFn (rewriter_filter w)) (TreeCallbackFn tracked) true) ;;
      '(bare, _) ← IsBare w;
      if negb bare then
        err ← Checkout w;
        match err with
        | Some err => ExitWithError err
        | None => mret tt
        end
      else mret tt)).

(** The store of a process that has just started. *)
Definition initial (db : gmap oid object) : state :=
  mkState [] db false NotAcquired false [].

(** ** Notions used to state the properties *)

(** The lines of the attribute file of tree [t] in store [s]: none when the
    tree has no such entry, the lines of its blob otherwise. *)
Inductive attribute_file_lines (s : state) (t : Tree) : list string → Prop :=
  | attribute_file_absent :
      find (λ e, bool_decide (Name e = ".gitattributes")) (Entries t) = None →
      attribute_file_lines s t []
  | attribute_file_present (e : TreeEntry) (contents : string) :
      find (λ e, bool_decide (Name e = ".gitattributes")) (Entries t) = Some e →
      objects s !! Oid e = Some (ObjBlob contents) →
      attribute_file_lines s t (lines contents).

(** What a transform leaves alone: everything but the ordered sets and the
    object database. *)
Definition frame (s s' : state) : Prop :=
  refs_updated s' = refs_updated s ∧ db_handle s' = db_handle s ∧
  log_closed s' = log_closed s ∧ trace s' = trace s.

(** A transform-level failure on visit [v] in store [s]: the content filter
    fails on a blob that is not an attribute file, or the attribute file of a
    root tree cannot be read. *)
Inductive transform_fails (filter : Filter) (s : state) : visit → error → Prop :=
  | blob_transform_fails (path : string) (b : Blob) (buf : string) (err : error) :
      Base path ≠ ".gitattributes" →
      smudge (Contents b) path false filter = (buf, Some err) →
      transform_fails filter s (VisitBlob path b) err
  | tree_transform_fails (t : Tree) (err : error) (s' : state) :
      trackedFromAttrs t s = (Val (Err err), s') →
      transform_fails filter s (VisitTree "/" t) err.

(** The same surroundings with another answer of [git.IsBare]. *)
Definition set_bare_answer (a : bool * option error) (w : world) : world :=
  mkWorld (database_error w) (rewriter_filter w) (traversal w) a
    (checkout_error w) (migrateVerbose w) (objectMapFilePath w).

(** Modelled from the spec: [escapeAttrPattern] is not among the sources.
    "Escape at minimum: space, #, !, and backslash itself, by prefixing each
    with a backslash, applied once, left-to-right."  Used where a concrete
    escaping function is needed. *)
Fixpoint escapeAttrPattern_spec (p : string) : string :=
  match p with
  | EmptyString => EmptyString
  | String c rest =>
      if bool_decide (c ∈ [" "; "#"; "!"; "\"]%char)
      then String "\"%char (String c (escapeAttrPattern_spec rest))
      else String c (escapeAttrPattern_spec rest)
  end.

(** A content filter, an id function and a database for concrete runs: the
    filter fails on the contents "bad"; the database never fails to write. *)
Definition example_smudge (from path : string) (skip : bool) (f : Filter)
  : string * option error :=
  if bool_decide (from = "bad") then ("", Some "missing object")
  else ("resolved " +:+ from, None).
Definition example_object_id (o : object) : oid :=
  match o with
  | ObjBlob contents => "blob " +:+ contents
  | ObjTree entries => "tree " +:+ serialize (Name <$> entries)
  end.
Definition example_write_fault (o : object) : option error := None.

(** A repository for concrete runs: a root tree with a pointer file and an
    attribute file that tracks "*.psd". *)
Definition example_attributes : string :=
  "*.psd filter=lfs diff=lfs merge=lfs -text" +:+ String LF "".
Definition example_tree : Tree :=
  mkTree [mkTreeEntry "a.bin" 33188 "pointer";
          mkTreeEntry ".gitattributes" 33188 "attributes"].
Definition example_db : gmap oid object :=
  {[ "attributes" := ObjBlob example_attributes;
     "pointer" := ObjBlob "oid sha256:4d7a" ]}.
Definition example_canonical : list string := ["*.bin text -filter -merge -diff"].
Definition example_store : state :=
  mkState [example_canonical] example_db false Open false [EvRewrite].

(** Runs of the command: one that succeeds although [git.IsBare] fails, one
    whose content filter fails, one without include patterns. *)
Definition example_world : world :=
  mkWorld None (mkFilter ["*.bin"] [])
    [VisitBlob "a.bin" (mkBlob "oid sha256:4d7a" 15); VisitTree "/" example_tree]
    (false, Some "exit status 128") None false "".
Definition example_world_bad_pointer : world :=
  mkWorld None (mkFilter ["*.bin"] [])
    [VisitBlob "a.bin" (mkBlob "bad" 3); VisitTree "/" example_tree]
    (false, None) None false "".
Definition example_world_no_include : world :=
  mkWorld None (mkFilter [] ["*.psd"])
    [VisitBlob "a.bin" (mkBlob "oid sha256:4d7a" 15); VisitTree "/" example_tree]
    (false, None) None false "".

(** ** Notions used by the further properties *)

(** Does byte [c] occur in [s]. *)
Fixpoint occurs (c : ascii) (s : string) : bool :=
  match s with
  | EmptyString => false
  | String c' rest => bool_decide (c' = c) || occurs c rest
  end.

(** The same surroundings with another outcome of [git.Checkout]. *)
Definition set_checkout_error (e : option error) (w : world) : world :=
  mkWorld (database_error w) (rewriter_filter w) (traversal w) (bare_answer w)
    e (migrateVerbose w) (objectMapFilePath w).

(** Further runs: a bare repository, a checkout that fails, no database. *)
Definition example_world_bare : world :=
  set_checkout_error (Some "not a work tree")
    (set_bare_answer (true, None) example_world).
Definition example_world_checkout_fails : world :=
  set_checkout_error (Some "index.lock exists")
    (set_bare_answer (false, None) example_world).
Definition example_world_no_database : world :=
  mkWorld (Some "not a git repository") (mkFilter [] []) [] (false, None) None false "".

(** A database that cannot store anything. *)
Definition example_write_fault_full (o : object) : option error := Some "disk full".

(** * Properties *)

(** ** Stores *)

Lemma set_sets_id (s : state) (h : list (list string)) :
  h = sets s → set_sets (λ _, h) s = s.
Proof. intros ->. by destruct s. Qed.

Lemma set_sets_ext (f g : list (list string) → list (list string)) (s : state) :
  f (sets s) = g (sets s) → set_sets f s = set_sets g s.
Proof. unfold set_sets. by intros ->. Qed.

Lemma set_sets_set_sets (f g : list (list string) → list (list string)) (s : state) :
  set_sets f (set_sets g s) = set_sets (λ h, f (g h)) s.
Proof. done. Qed.

Lemma frame_refl (s : state) : frame s s.
Proof. by repeat split. Qed.

Lemma frame_trans (s1 s2 s3 : state) : frame s1 s2 → frame s2 s3 → frame s1 s3.
Proof. unfold frame. intros (?&?&?&?) (?&?&?&?). repeat split; congruence. Qed.

(** Sequencing, one step at a time. *)
Lemma bind_run {A B : Type} (m : M A) (f : A → M B) (s : state) :
  (m ≫= f) s = match m s with
               | (Val a, s') => f a s'
               | (Exit c msg, s') => (Exit c msg, s')
               end.
Proof. done. Qed.

Lemma ret_run {A : Type} (a : A) (s : state) : (mret a : M A) s = (Val a, s).
Proof. done. Qed.

Ltac mstep := repeat (rewrite bind_run || rewrite ret_run).

(** ** Ordered sets *)

Lemma union_dedup_from (a b : list string) :
  OrderedSet.union a b = a ++ dedup_from a b.
Proof.
  unfold OrderedSet.union. revert a.
  induction b as [|x b IH]; intros a; simpl.
  - by rewrite app_nil_r.
  - unfold OrderedSet.add at 2. case_bool_decide as Hx.
    + apply IH.
    + rewrite IH, <- app_assoc. done.
Qed.

Lemma union_nil_dedup_first (l : list string) :
  OrderedSet.union [] l = dedup_first l.
Proof. by rewrite union_dedup_from. Qed.

Lemma union_app (a l k : list string) :
  OrderedSet.union (OrderedSet.union a l) k = OrderedSet.union a (l ++ k).
Proof. unfold OrderedSet.union. by rewrite foldl_app. Qed.

Lemma dedup_from_NoDup (seen l : list string) :
  NoDup seen → NoDup (seen ++ dedup_from seen l).
Proof.
  revert seen. induction l as [|x l IH]; intros seen Hseen; simpl.
  - by rewrite app_nil_r.
  - case_bool_decide as Hx; [by apply IH|].
    specialize (IH (seen ++ [x])). rewrite <- app_assoc in IH. apply IH.
    apply NoDup_app. repeat split; [done| |apply NoDup_singleton].
    intros y Hy ->%list_elem_of_singleton. done.
Qed.

Lemma dedup_from_elem_of (seen l : list string) (x : string) :
  x ∈ seen ++ dedup_from seen l ↔ x ∈ seen ∨ x ∈ l.
Proof.
  revert seen. induction l as [|y l IH]; intros seen; simpl.
  - rewrite app_nil_r, elem_of_nil. clear. tauto.
  - case_bool_decide as Hy.
    + rewrite IH, elem_of_cons. split; [clear; tauto|].
      intros [?|[->|?]]; [by left|by left|by right].
    + specialize (IH (seen ++ [y])). rewrite <- app_assoc in IH. simpl in IH.
      rewrite IH, elem_of_app, list_elem_of_singleton, elem_of_cons.
      clear. tauto.
Qed.

Lemma filter_not_elem_of_ext (seen seen' l : list string) :
  (∀ x, x ∈ l → (x ∉ seen ↔ x ∉ seen')) →
  filter (λ x, x ∉ seen) l = filter (λ x, x ∉ seen') l.
Proof.
  induction l as [|y l IH]; intros H; [done|].
  rewrite !filter_cons.
  rewrite IH by (intros x Hx; apply H; by right).
  destruct (decide (y ∉ seen)) as [Hy|Hy].
  - rewrite decide_True; [done|]. apply H; [by left|done].
  - rewrite decide_False; [done|]. intros Hy'. apply Hy, H; [by left|done].
Qed.

(** On a list without repetition, dropping what was seen is a filter. *)
Lemma dedup_from_filter (seen l : list string) :
  NoDup l → dedup_from seen l = filter (λ x, x ∉ seen) l.
Proof.
  revert seen. induction l as [|x l IH]; intros seen Hl; [done|].
  apply NoDup_cons in Hl as [Hx Hl]. simpl. rewrite filter_cons.
  case_bool_decide as Hin.
  - rewrite decide_False by (intros Hn; by apply Hn). by apply IH.
  - rewrite decide_True by done. f_equal. rewrite IH by done.
    apply filter_not_elem_of_ext. intros y Hy.
    rewrite not_elem_of_app, list_elem_of_singleton.
    split; [by intros [? _]|]. intros ?. split; [done|]. by intros ->.
Qed.

Lemma dedup_first_NoDup (l : list string) : NoDup (dedup_first l).
Proof. apply (dedup_from_NoDup [] l). constructor. Qed.

Lemma dedup_first_elem_of (l : list string) (x : string) :
  x ∈ dedup_first l ↔ x ∈ l.
Proof.
  pose proof (dedup_from_elem_of [] l x) as H. simpl in H.
  rewrite H, elem_of_nil. clear. tauto.
Qed.

Lemma dedup_first_id (l : list string) : NoDup l → dedup_first l = l.
Proof.
  intros Hl. unfold dedup_first. rewrite dedup_from_filter by done.
  induction l as [|x l IH]; [done|].
  rewrite filter_cons, decide_True by apply not_elem_of_nil.
  f_equal. apply IH. by apply NoDup_cons in Hl as [_ ?].
Qed.

(** Adding the images of a list to a live set, one by one, is a union. *)
Lemma range_Add {A : Type} (r : ref) (g : A → string) (l : list A)
    (s : state) (elems : list string) :
  sets s !! r = Some elems →
  range l (λ x, OrderedSet.Add r (g x) ;; mret tt) s
  = (Val tt, set_sets (λ h, <[r := OrderedSet.union elems (map g l)]> h) s).
Proof.
  revert s elems. induction l as [|x l IH]; intros s elems Hr.
  - cbn [range map]. mstep. f_equal. symmetry.
    rewrite (set_sets_ext _ (λ _, sets s)); [by apply set_sets_id|].
    by apply list_insert_id.
  - cbn [range map]. mstep. unfold OrderedSet.Add at 1. rewrite Hr.
    unfold OrderedSet.union. cbn [foldl]. unfold OrderedSet.add at 1 3.
    case_bool_decide as Hx; mstep.
    + by apply IH.
    + rewrite (IH (set_sets (λ h, <[r := elems ++ [g x]]> h) s) (elems ++ [g x])).
      * f_equal. rewrite set_sets_set_sets. apply set_sets_ext.
        apply list_insert_insert_eq.
      * simpl. apply list_lookup_insert_eq. by eapply lookup_lt_Some.
Qed.

Lemma New_run (s : state) :
  OrderedSet.New s = (Val (length (sets s)), set_sets (λ h, h ++ [[]]) s).
Proof. done. Qed.

Lemma lookup_fresh {A : Type} (h : list A) (x : A) : (h ++ [x]) !! length h = Some x.
Proof. by apply list_lookup_middle. Qed.

Lemma insert_fresh {A : Type} (h : list A) (x y : A) :
  <[length h := y]> (h ++ [x]) = h ++ [y].
Proof. by rewrite insert_app_r_alt, Nat.sub_diag by lia. Qed.

(** A fresh set filled with the images of a list. *)
Lemma New_range_Add {A B : Type} (g : A → string) (k : ref → B) (l : list A)
      (s : state) :
    (attrs ← OrderedSet.New;
     range l (λ x, OrderedSet.Add attrs (g x) ;; mret tt) ;; mret (k attrs)) s
    = (Val (k (length (sets s))),
       set_sets (λ h, h ++ [dedup_first (map g l)]) s).
Proof.
    mstep. rewrite New_run. mstep.
    rewrite (range_Add _ _ _ _ []) by apply lookup_fresh. mstep.
    rewrite union_nil_dedup_first. f_equal.
    rewrite set_sets_set_sets. apply set_sets_ext. apply insert_fresh.
Qed.

Lemma Clone_run (r : ref) (s : state) (elems : list string) :
    sets s !! r = Some elems →
    OrderedSet.Clone r s = (Val (length (sets s)), set_sets (λ h, h ++ [elems]) s).
Proof. intros H. unfold OrderedSet.Clone. by rewrite H. Qed.

Lemma Union_run (r other : ref) (s : state) (a b : list string) :
    sets s !! r = Some a → sets s !! other = Some b →
    OrderedSet.Union r other s
    = (Val (length (sets s)), set_sets (λ h, h ++ [OrderedSet.union a b]) s).
Proof. intros Ha Hb. unfold OrderedSet.Union. by rewrite Ha, Hb. Qed.

Lemma Iter_run (r : ref) (s : state) (elems : list string) :
    sets s !! r = Some elems → OrderedSet.Iter r s = (Val elems, s).
Proof. intros H. unfold OrderedSet.Iter. by rewrite H. Qed.

(** ** Strings *)

Lemma string_last_app (a d : string) :
  d ≠ "" → string_last (a +:+ d) = string_last d.
Proof.
  intros Hd. induction a as [|c a IH]; [done|].
  rewrite <- IH. change ((String c a) +:+ d) with (String c (a +:+ d)).
  destruct (a +:+ d) eqn:E; [|done].
  destruct a; simpl in E; [by subst|discriminate].
Qed.

Lemma string_app_length (a d : string) :
  String.length (a +:+ d) = String.length a + String.length d.
Proof. induction a as [|c a IH]; simpl; [done|by rewrite IH]. Qed.

Lemma string_app_inj_r (a b d : string) : a +:+ d = b +:+ d → a = b.
Proof.
  revert b. induction a as [|c a IH]; intros [|c' b] H.
  - done.
  - apply (f_equal String.length) in H.
    rewrite !string_app_length in H. simpl in H. lia.
  - apply (f_equal String.length) in H.
    rewrite !string_app_length in H. simpl in H. lia.
  - simpl in H. injection H as -> H. f_equal. by apply IH.
Qed.

(** *** The canonical attribute lines *)

(** An export line is never a track line: they end in different bytes. *)
Lemma export_line_ne_track_line (p q : string) : export_line p ≠ track_line q.
Proof.
  unfold export_line, track_line. intros H.
  apply (f_equal string_last) in H.
  rewrite !string_last_app in H by done. discriminate.
Qed.

Lemma NoDup_map_line (d : string) (l : list string) :
  NoDup (map escapeAttrPattern l) →
  NoDup (map (λ p, escapeAttrPattern p +:+ d) l).
Proof.
  induction l as [|p l IH]; simpl; [constructor|].
  rewrite !NoDup_cons. intros [Hp Hl]. split; [|by apply IH].
  intros Hin. apply Hp.
  apply list_elem_of_In, in_map_iff in Hin as (q & Hq & Hin).
  apply string_app_inj_r in Hq. rewrite <- Hq.
  apply list_elem_of_In, in_map. done.
Qed.

Lemma canonical_lines_NoDup (filter : Filter) :
  NoDup (map escapeAttrPattern (Include filter)) →
  NoDup (map escapeAttrPattern (Exclude filter)) →
  NoDup (canonical_lines filter).
Proof.
  intros Hi He. unfold canonical_lines. apply NoDup_app.
  split; [by apply NoDup_map_line|]. split; [|by apply NoDup_map_line].
  intros x Hx Hx'.
  apply list_elem_of_In, in_map_iff in Hx as (p & <- & _).
  apply list_elem_of_In, in_map_iff in Hx' as (q & Hq & _).
  symmetry in Hq. by apply export_line_ne_track_line in Hq.
Qed.

Lemma trackedFromExportFilter_run (filter : Filter) (s : state) :
  trackedFromExportFilter filter s
  = (Val (length (sets s)),
     set_sets (λ h, h ++ [dedup_first (canonical_lines filter)]) s).
Proof.
  unfold trackedFromExportFilter. mstep. rewrite New_run. mstep.
  rewrite (range_Add _ _ _ _ []) by apply lookup_fresh. mstep.
  erewrite range_Add; cycle 1.
  { simpl. rewrite list_lookup_insert_eq; [done|].
    rewrite length_app. simpl. lia. }
  mstep. f_equal. rewrite !set_sets_set_sets. apply set_sets_ext.
  rewrite list_insert_insert_eq, insert_fresh.
  by rewrite union_app, union_nil_dedup_first.
Qed.

(** C2: [trackedFromExportFilter] returns a fresh set holding one line per
    include pattern (escaped pattern, then the export directive) followed
    by one line per exclude pattern (escaped pattern, then the track
    directive), repeated lines collapsed onto their first occurrence; when
    no escaped pattern is repeated within the includes nor within the
    excludes, nothing collapses and the set has exactly k1 + k2 lines,
    includes first. *)
Theorem trackedFromExportFilter_lines (filter : Filter) (s : state) :
  ∃ tracked s' elems,
    trackedFromExportFilter filter s = (Val tracked, s') ∧
    sets s' !! tracked = Some elems ∧
    sets s !! tracked = None ∧
    elems = dedup_first (map export_line (Include filter) ++
                         map track_line (Exclude filter)) ∧
    NoDup elems ∧
    (∀ l, l ∈ elems ↔
          (∃ p, p ∈ Include filter ∧ l = escapeAttrPattern p +:+ " text -filter -merge -diff") ∨
          (∃ p, p ∈ Exclude filter ∧ l = escapeAttrPattern p +:+ " filter=lfs diff=lfs merge=lfs -text")) ∧
    (NoDup (map escapeAttrPattern (Include filter)) →
     NoDup (map escapeAttrPattern (Exclude filter)) →
     elems = map export_line (Include filter) ++ map track_line (Exclude filter) ∧
     length elems = length (Include filter) + length (Exclude filter)).
Proof.
  eexists _, _, _. split; [apply trackedFromExportFilter_run|].
  split; [apply lookup_fresh|]. split; [by apply lookup_ge_None_2|].
  split; [done|]. split; [apply dedup_first_NoDup|]. split.
  - intros l. rewrite dedup_first_elem_of. unfold canonical_lines.
    rewrite elem_of_app, !list_elem_of_In, !in_map_iff.
    unfold export_line, track_line. split.
    + intros [(p & <- & Hp)|(p & <- & Hp)]; [left|right];
        exists p; by rewrite list_elem_of_In.
    + intros [(p & Hp & ->)|(p & Hp & ->)]; [left|right];
        exists p; by rewrite <- list_elem_of_In.
  - intros Hi He. rewrite dedup_first_id by by apply canonical_lines_NoDup.
    split; [done|]. unfold canonical_lines. by rewrite length_app, !length_map.
Qed.

(** *** The blob transform *)

(** C5: on a path whose base name is the attribute file name, [BlobFn]
    returns the blob it was given, whatever its contents, and touches
    nothing. *)
Theorem BlobFn_gitattributes_identity (filter : Filter) (path : string)
    (b : Blob) (s : state) :
  Base path = ".gitattributes" →
  BlobFn filter path b s = (Val (Ok b), s).
Proof. intros H. unfold BlobFn. by rewrite bool_decide_eq_true_2. Qed.

(** C4: on any other path, when the content filter resolves the blob, [BlobFn]
    returns a new blob whose contents are the resolved bytes and whose size
    is their number. *)
Theorem BlobFn_resolved (filter : Filter) (path : string) (b : Blob)
    (s : state) (bytes : string) :
  Base path ≠ ".gitattributes" →
  smudge (Contents b) path false filter = (bytes, None) →
  BlobFn filter path b s
  = (Val (Ok (mkBlob bytes (Z.of_nat (String.length bytes)))), s).
Proof.
  intros Hbase Hsmudge. unfold BlobFn.
  rewrite bool_decide_eq_false_2 by done. by rewrite Hsmudge.
Qed.

Lemma BlobFn_state (filter : Filter) (path : string) (b : Blob) (s : state) :
  ∃ r, BlobFn filter path b s = (Val r, s).
Proof.
  unfold BlobFn. case_bool_decide; [by eexists|].
  destruct (smudge _ _ _ _) as [buf [e|]]; by eexists.
Qed.

(** *** The tree transform *)

(** C6: on every path but "/", [TreeCallbackFn] returns the tree it was given
    and touches nothing. *)
Theorem TreeCallbackFn_non_root_identity (tracked : ref) (path : string)
    (t : Tree) (s : state) :
  path ≠ "/" →
  TreeCallbackFn tracked path t s = (Val (Ok t), s).
Proof. intros H. unfold TreeCallbackFn. by rewrite bool_decide_eq_false_2. Qed.

Lemma Merge_entry_elem_of (t : Tree) (e : TreeEntry) : e ∈ Entries (Merge t e).
Proof.
  unfold Merge. destruct (existsb _ _) eqn:E; simpl.
  - apply existsb_exists in E as (x & Hx & Hn). apply bool_decide_eq_true in Hn.
    apply list_elem_of_In, in_map_iff. exists x.
    by rewrite bool_decide_eq_true_2.
  - apply elem_of_app. right. by apply list_elem_of_singleton.
Qed.

Lemma Merge_named (t : Tree) (e x : TreeEntry) :
  x ∈ Entries (Merge t e) → Name x = Name e → x = e.
Proof.
  unfold Merge. destruct (existsb _ _) eqn:E; simpl.
  - intros (y & <- & Hy)%list_elem_of_In%in_map_iff.
    case_bool_decide; [done|]. intros; congruence.
  - intros [Hx| ->%list_elem_of_singleton]%elem_of_app; [|done].
    intros Hn. exfalso.
    assert (existsb (λ x, bool_decide (Name x = Name e)) (Entries t) = true)
      as E'; [|congruence].
    apply existsb_exists. exists x. split; [by apply list_elem_of_In|].
    by apply bool_decide_eq_true_2.
Qed.

Lemma Merge_others (t : Tree) (e : TreeEntry) :
  filter (λ x, Name x ≠ Name e) (Entries (Merge t e))
  = filter (λ x, Name x ≠ Name e) (Entries t).
Proof.
  unfold Merge. destruct (existsb _ _) eqn:E; simpl.
  - clear E. induction (Entries t) as [|x l IH]; [done|].
    cbn [map]. rewrite !filter_cons, IH.
    case_bool_decide as Hx.
    + by rewrite !decide_False by (intros Hn; by apply Hn).
    + by rewrite !decide_True by done.
  - rewrite filter_app. simpl.
    rewrite filter_cons, decide_False by (intros Hn; by apply Hn).
    by rewrite app_nil_r.
Qed.

Lemma Merge_length (t : Tree) (e : TreeEntry) :
  length (Entries (Merge t e))
  = if existsb (λ x, bool_decide (Name x = Name e)) (Entries t)
    then length (Entries t) else S (length (Entries t)).
Proof.
  unfold Merge. destruct (existsb _ _); simpl.
  - apply length_map.
  - rewrite length_app. simpl. lia.
Qed.

Lemma trackedFromAttrs_run (t : Tree) (s : state) (file : list string) :
  attribute_file_lines s t file →
  trackedFromAttrs t s
  = (Val (Ok (length (sets s))), set_sets (λ h, h ++ [dedup_first file]) s).
Proof.
  intros [Hfind|e contents Hfind Hblob]; unfold trackedFromAttrs; rewrite Hfind.
  - mstep. by rewrite New_run.
  - mstep. unfold ReadBlob. rewrite Hblob.
    pose proof (New_range_Add id Ok (lines contents) s) as H.
    rewrite map_id in H. exact H.
Qed.

(** A failure of [trackedFromAttrs] leaves the store as it was. *)
Lemma trackedFromAttrs_failure (t : Tree) (s s' : state) (err : error) :
  trackedFromAttrs t s = (Val (Err err), s') → s' = s.
Proof.
  unfold trackedFromAttrs. destruct (find _ _) as [e|].
  - rewrite bind_run. unfold ReadBlob.
    destruct (objects s !! Oid e) as [[contents|entries]|];
      [|cbn beta iota; rewrite ret_run; by intros [= _ <-]..].
    pose proof (New_range_Add id (@Ok ref) (lines contents) s) as H.
    intros H'. unfold id in H. rewrite H in H'. inversion H'.
  - mstep. rewrite New_run. intros H. inversion H.
Qed.

Lemma TreeCallbackFn_root_run (tracked : ref) (t : Tree) (s : state)
    (canonical file : list string) :
  let merged := OrderedSet.union (dedup_first file) canonical in
  let blob := ObjBlob (serialize merged) in
  let s1 := set_sets (λ h, h ++ [dedup_first file; dedup_first file; merged]) s in
  sets s !! tracked = Some canonical →
  attribute_file_lines s t file →
  TreeCallbackFn tracked "/" t s
  = match write_fault blob with
    | Some err => (Val (Err err), s1)
    | None =>
        (Val (Ok (Merge t (mkTreeEntry ".gitattributes" mode_regular (object_id blob)))),
         set_objects (λ m, <[object_id blob := blob]> m) s1)
    end.
Proof.
  intros merged blob s1 Htracked Hfile. unfold TreeCallbackFn.
  rewrite bool_decide_eq_true_2 by done. cbn [negb]. mstep.
  rewrite (trackedFromAttrs_run _ _ _ Hfile). mstep.
  rewrite (Clone_run _ _ (dedup_first file)) by apply lookup_fresh. mstep.
  rewrite (Union_run _ _ _ (dedup_first file) canonical); cycle 1.
  { simpl. rewrite length_app. simpl.
    replace (length (sets s) + 1) with (length (sets s ++ [dedup_first file]))
      by (rewrite length_app; done).
    apply lookup_fresh. }
  { simpl. rewrite <- app_assoc. rewrite lookup_app_l; [done|].
    by eapply lookup_lt_Some. }
  mstep. unfold trackedToBlob. mstep.
  rewrite (Iter_run _ _ merged); cycle 1.
  { simpl. rewrite !length_app. simpl.
    replace (length (sets s) + 1 + 1)
      with (length ((sets s ++ [dedup_first file]) ++ [dedup_first file]))
      by (rewrite !length_app; done).
    apply lookup_fresh. }
  assert (set_sets (λ h, h ++ [OrderedSet.union (dedup_first file) canonical])
            (set_sets (λ h, h ++ [dedup_first file])
               (set_sets (λ h, h ++ [dedup_first file]) s)) = s1) as ->.
  { unfold s1. rewrite !set_sets_set_sets. apply set_sets_ext.
    by rewrite <- !app_assoc. }
  unfold WriteObject. fold merged. fold blob.
  destruct (write_fault blob) as [err|]; by mstep.
Qed.

(** C1: at the root, [TreeCallbackFn] returns the tree with its
    ".gitattributes" entry replaced, or added, by an entry of mode 0100644
    whose blob is stored and holds, one per line: the lines of the existing
    attribute file (each at its first occurrence, in their order), then the
    canonical lines that are not among them, in canonical order.  No line is
    repeated; the other entries of the tree are kept as they were, and the
    tree grows by one entry exactly when it had no attribute file. *)
Theorem TreeCallbackFn_root_merges (tracked : ref) (t : Tree) (s : state)
    (canonical file : list string) :
  let theirs := dedup_first file in
  let merged := theirs ++ filter (λ l, l ∉ theirs) canonical in
  let entry := mkTreeEntry ".gitattributes" 33188 (object_id (ObjBlob (serialize merged))) in
  sets s !! tracked = Some canonical →
  NoDup canonical →
  attribute_file_lines s t file →
  write_fault (ObjBlob (serialize merged)) = None →
  ∃ (t' : Tree) (s' : state),
    TreeCallbackFn tracked "/" t s = (Val (Ok t'), s') ∧
    t' = Merge t entry ∧
    objects s' !! Oid entry = Some (ObjBlob (serialize merged)) ∧
    NoDup merged ∧
    entry ∈ Entries t' ∧
    (∀ e, e ∈ Entries t' → Name e = ".gitattributes" → e = entry) ∧
    filter (λ e, Name e ≠ ".gitattributes") (Entries t')
    = filter (λ e, Name e ≠ ".gitattributes") (Entries t) ∧
    length (Entries t')
    = if existsb (λ e, bool_decide (Name e = ".gitattributes")) (Entries t)
      then length (Entries t) else S (length (Entries t)).
Proof.
  intros theirs merged entry Htracked Hcanon Hfile Hwrite.
  assert (OrderedSet.union (dedup_first file) canonical = merged) as Hmerged.
  { rewrite union_dedup_from. unfold merged, theirs.
    by rewrite dedup_from_filter. }
  pose proof (TreeCallbackFn_root_run tracked t s canonical file Htracked Hfile)
    as Hrun. cbv zeta in Hrun. rewrite Hmerged, Hwrite in Hrun.
  eexists _, _. split; [exact Hrun|]. split; [done|].
  split; [simpl; apply lookup_insert_eq|]. split.
  { rewrite <- Hmerged, union_dedup_from.
    apply dedup_from_NoDup, dedup_first_NoDup. }
  split; [apply Merge_entry_elem_of|]. split; [|split].
  - intros e He Hn. by apply (Merge_named t entry e).
  - apply (Merge_others t entry).
  - apply (Merge_length t entry).
Qed.

(** *** What the transforms leave alone *)

Lemma trackedFromAttrs_cases (t : Tree) (s : state) :
  (∃ file, attribute_file_lines s t file) ∨
  (∃ err, trackedFromAttrs t s = (Val (Err err), s)).
Proof.
  destruct (find (λ e, bool_decide (Name e = ".gitattributes")) (Entries t))
    as [e|] eqn:Hfind.
  - destruct (objects s !! Oid e) as [[contents|entries]|] eqn:Hblob.
    + left. eexists. by eapply attribute_file_present.
    + right. unfold trackedFromAttrs, ReadBlob. rewrite Hfind. mstep.
      rewrite Hblob. by eexists.
    + right. unfold trackedFromAttrs, ReadBlob. rewrite Hfind. mstep.
      rewrite Hblob. by eexists.
  - left. exists []. by apply attribute_file_absent.
Qed.

Lemma lookup_live_app {A : Type} (h k : list A) (i : nat) (x : A) :
  h !! i = Some x → (h ++ k) !! i = Some x.
Proof. intros H. rewrite lookup_app_l; [done|]. by eapply lookup_lt_Some. Qed.

(** An invocation of the tree transform returns; it leaves the canonical set,
    the refs, the handle and the trace as they were, and on failure the
    object database too. *)
Lemma TreeCallbackFn_total (tracked : ref) (path : string) (t : Tree)
    (s : state) (canonical : list string) :
  sets s !! tracked = Some canonical →
  ∃ r s', TreeCallbackFn tracked path t s = (Val r, s') ∧
          frame s s' ∧ sets s' !! tracked = Some canonical ∧
          (∀ err, r = Err err → objects s' = objects s).
Proof.
  intros Htracked. destruct (decide (path = "/")) as [->|Hpath].
  - destruct (trackedFromAttrs_cases t s) as [[file Hfile]|[err Herr]].
    + rewrite (TreeCallbackFn_root_run _ _ _ _ _ Htracked Hfile).
      destruct (write_fault _); eexists _, _; (split; [done|]);
        (split; [by repeat split|]); (split; [by apply lookup_live_app|]);
        by intros.
    + unfold TreeCallbackFn. rewrite bool_decide_eq_true_2 by done.
      cbn [negb]. mstep. rewrite Herr. mstep.
      eexists _, _. split; [done|]. split; [apply frame_refl|]. by split.
  - unfold TreeCallbackFn. rewrite bool_decide_eq_false_2 by done.
    cbn [negb]. rewrite ret_run.
    eexists _, _. split; [done|]. split; [apply frame_refl|].
    split; [done|]. intros; discriminate.
Qed.

Lemma WriteObject_total (o : object) (s : state) :
  ∃ r s', WriteObject o s = (Val r, s') ∧ frame s s' ∧ sets s' = sets s.
Proof.
  unfold WriteObject. destruct (write_fault o); eexists _, _;
    (split; [done|]); by repeat split.
Qed.

Lemma apply_transform_total (opts : RewriteOptions) (filter : Filter)
    (tracked : ref) (v : visit) (s : state) (canonical : list string) :
  optBlobFn opts = BlobFn filter →
  optTreeCallbackFn opts = TreeCallbackFn tracked →
  sets s !! tracked = Some canonical →
  ∃ r s', apply_transform opts v s = (Val r, s') ∧
          frame s s' ∧ sets s' !! tracked = Some canonical ∧
          (∀ err, r = Err err → objects s' = objects s).
Proof.
  intros HB HT Htracked. destruct v as [path b|path t]; simpl; mstep.
  - rewrite HB. destruct (BlobFn_state filter path b s) as [r ->].
    destruct r; mstep; eexists _, _; (split; [done|]);
      (split; [apply frame_refl|]); by split.
  - rewrite HT.
    destruct (TreeCallbackFn_total tracked path t s canonical Htracked)
      as (r & s' & -> & Hframe & Hsets & Hobj).
    destruct r as [t'|err]; mstep; eexists _, _; (split; [done|]);
      (split; [done|]); (split; [done|]).
    + intros; discriminate.
    + intros err' _. by apply (Hobj err).
Qed.

(** A traversal returns, and leaves the canonical set, the refs, the handle
    and the trace as they were. *)
Lemma rewrite_objects_total (opts : RewriteOptions) (filter : Filter)
    (tracked : ref) (vs : list visit) (s : state) (canonical : list string) :
  optBlobFn opts = BlobFn filter →
  optTreeCallbackFn opts = TreeCallbackFn tracked →
  sets s !! tracked = Some canonical →
  ∃ r s', rewrite_objects opts vs s = (Val r, s') ∧
          frame s s' ∧ sets s' !! tracked = Some canonical.
Proof.
  intros HB HT. revert s. induction vs as [|v vs IH]; intros s Htracked.
  - eexists _, _. split; [done|]. split; [apply frame_refl|done].
  - cbn [rewrite_objects]. mstep.
    destruct (apply_transform_total opts filter tracked v s canonical HB HT Htracked)
      as (r & s1 & -> & Hf1 & Hs1 & _).
    destruct r as [o|err]; mstep.
    + destruct (WriteObject_total o s1) as (w & s2 & -> & Hf2 & Hs2).
      destruct w as [id|err]; mstep.
      * destruct (IH s2) as (r & s3 & -> & Hf3 & Hs3); [by rewrite Hs2|].
        eexists _, _. split; [done|]. split; [|done].
        eauto using frame_trans.
      * eexists _, _. split; [done|]. split; [eauto using frame_trans|].
        by rewrite Hs2.
    + eexists _, _. split; [done|]. by split.
Qed.

(** *** The command, path by path *)

Lemma migrateExportCommand_run (w : world) (s : state) :
  migrateExportCommand w s
  = match database_error w with
    | Some err => ExitWithError err s
    | None =>
        let s0 := set_db_handle Open s in
        if (Z.of_nat (length (Include (rewriter_filter w))) <=? 0)%Z
        then ExitWithError
               "fatal: one or more files must be specified with --include" s0
        else
          let tracked := length (sets s) in
          let s1 :=
            set_sets (λ h, h ++ [dedup_first (canonical_lines (rewriter_filter w))]) s0 in
          match rewrite_objects
                  (mkRewriteOptions (migrateVerbose w) (objectMapFilePath w)
                     (BlobFn (rewriter_filter w)) (TreeCallbackFn tracked) true)
                  (traversal w) (emit EvRewrite s1) with
          | (Val (Ok _), s2) =>
              let s3 := set_refs_updated true s2 in
              if fst (bare_answer w)
              then (Val tt, set_log_closed true (set_db_handle Closed s3))
              else match checkout_error w with
                   | Some err => ExitWithError err (emit EvCheckout s3)
                   | None =>
                       (Val tt, set_log_closed true
                                  (set_db_handle Closed (emit EvCheckout s3)))
                   end
          | (Val (Err err), s2) => ExitWithError err s2
          | (Exit c msg, s2) => (Exit c msg, s2)
          end
    end.
Proof.
  unfold migrateExportCommand, defer. mstep. unfold getObjectDatabase at 1.
  destruct (database_error w) as [err|]; [done|]. mstep.
  destruct (Z.of_nat _ <=? 0)%Z; [done|]. mstep.
  rewrite trackedFromExportFilter_run. mstep.
  unfold migrate, Rewrite. mstep. unfold record at 1. mstep.
  destruct (rewrite_objects _ _ _) as [[[[]|err]|c msg] s2]; [|done..].
  mstep. cbn [optUpdateRefs]. unfold update_refs at 1. mstep.
  unfold IsBare at 1. destruct (bare_answer w) as [[|] ignored]; [done|].
  cbn [negb fst]. mstep. unfold Checkout at 1.
  destruct (checkout_error w) as [err|]; done.
Qed.

(** The engine phase of the command returns, whatever it meets. *)
Lemma engine_phase (w : world) (s : state) :
  let tracked := length (sets s) in
  let canonical := dedup_first (canonical_lines (rewriter_filter w)) in
  let s1 := emit EvRewrite (set_sets (λ h, h ++ [canonical]) (set_db_handle Open s)) in
  ∃ r s2,
    rewrite_objects
      (mkRewriteOptions (migrateVerbose w) (objectMapFilePath w)
         (BlobFn (rewriter_filter w)) (TreeCallbackFn tracked) true)
      (traversal w) s1 = (Val r, s2) ∧
    frame s1 s2 ∧ sets s2 !! tracked = Some canonical.
Proof.
  intros tracked canonical s1.
  apply (rewrite_objects_total _ (rewriter_filter w) tracked); [done..|].
  apply lookup_fresh.
Qed.

(** C3: with an empty include list the command ends the process with a fatal
    message and the non-zero status, and the only thing it has done is to
    report that message: the rewrite engine was not entered, the object
    database, the ordered sets and the refs are as they were. *)
Theorem empty_include_is_fatal (w : world) (s : state) :
  Include (rewriter_filter w) = [] →
  ∃ msg s',
    migrateExportCommand w s = (Exit fatal_status msg, s') ∧
    fatal_status ≠ 0%Z ∧
    (database_error w = None →
     msg = "fatal: one or more files must be specified with --include") ∧
    trace s' = trace s ++ [EvFatal msg] ∧
    objects s' = objects s ∧ sets s' = sets s ∧
    refs_updated s' = refs_updated s.
Proof.
  intros Hinc. rewrite migrateExportCommand_run, Hinc.
  destruct (database_error w) as [err|]; simpl;
    eexists _, _; (split; [done|]); repeat split; done.
Qed.

Lemma rewrite_objects_app (opts : RewriteOptions) (pre rest : list visit)
    (s s1 : state) :
  rewrite_objects opts pre s = (Val (Ok tt), s1) →
  rewrite_objects opts (pre ++ rest) s = rewrite_objects opts rest s1.
Proof.
  revert s. induction pre as [|v pre IH]; intros s; simpl.
  - rewrite ret_run. by intros [= ->].
  - rewrite !bind_run. destruct (apply_transform opts v s) as [[[o|err]|c msg] s'];
      [|by rewrite ?ret_run..].
    rewrite !bind_run. destruct (WriteObject o s') as [[[id|err]|c msg] s''];
      [|by rewrite ?ret_run..].
    apply IH.
Qed.

Lemma apply_transform_failure (verbose : bool) (mapfile : string)
    (filter : Filter) (tracked : ref) (v : visit) (s : state) (err : error) :
  transform_fails filter s v err →
  apply_transform
    (mkRewriteOptions verbose mapfile (BlobFn filter) (TreeCallbackFn tracked) true)
    v s = (Val (Err err), s).
Proof.
  intros [path b buf e Hbase Hsmudge|t e s' Hattrs]; simpl; mstep.
  - unfold BlobFn. rewrite bool_decide_eq_false_2 by done.
    by rewrite Hsmudge.
  - unfold TreeCallbackFn. rewrite bool_decide_eq_true_2 by done.
    cbn [negb]. mstep. rewrite Hattrs.
    by rewrite (trackedFromAttrs_failure _ _ _ _ Hattrs).
Qed.

(** C7: when a transform fails during the traversal (the content filter on a
    blob, or the reading of the attribute file of a root tree), the transform
    returns that very error and no object, leaving the store as it found it;
    the command ends the process with that error as its message, the refs
    where they were, and nothing of the rest of the traversal, nor the
    checkout, is run. *)
Theorem transform_failure_is_fatal (w : world) (s s1 : state)
    (pre post : list visit) (v : visit) (err : error) :
  let tracked := length (sets s) in
  let canonical := dedup_first (canonical_lines (rewriter_filter w)) in
  let opts :=
    mkRewriteOptions (migrateVerbose w) (objectMapFilePath w)
      (BlobFn (rewriter_filter w)) (TreeCallbackFn tracked) true in
  database_error w = None →
  Include (rewriter_filter w) ≠ [] →
  traversal w = pre ++ v :: post →
  rewrite_objects opts pre
    (emit EvRewrite (set_sets (λ h, h ++ [canonical]) (set_db_handle Open s)))
  = (Val (Ok tt), s1) →
  transform_fails (rewriter_filter w) s1 v err →
  apply_transform opts v s1 = (Val (Err err), s1) ∧
  migrateExportCommand w s = (Exit fatal_status err, emit (EvFatal err) s1) ∧
  refs_updated s1 = refs_updated s ∧
  trace s1 = trace s ++ [EvRewrite].
Proof.
  intros tracked canonical opts Hdb Hinc Htrav Hpre Hfail.
  pose proof (apply_transform_failure (migrateVerbose w) (objectMapFilePath w)
                _ tracked _ _ _ Hfail) as Hv.
  split; [exact Hv|]. split.
  - rewrite migrateExportCommand_run, Hdb.
    destruct (Include (rewriter_filter w)) as [|p ps] eqn:E; [done|].
    cbn [length]. replace (Z.of_nat (S (length ps)) <=? 0)%Z with false
      by (symmetry; apply Z.leb_gt; lia).
    cbv zeta. rewrite Htrav. subst tracked canonical opts.
    rewrite (rewrite_objects_app _ _ _ _ _ Hpre).
    cbn [rewrite_objects]. rewrite bind_run, Hv. by rewrite ret_run.
  - destruct (rewrite_objects_total opts (rewriter_filter w) tracked pre
                (emit EvRewrite (set_sets (λ h, h ++ [canonical]) (set_db_handle Open s)))
                canonical) as (r & s' & Hrun & Hframe & _); [done..| |].
    { apply lookup_fresh. }
    rewrite Hpre in Hrun. injection Hrun as _ <-.
    destruct Hframe as (Hrefs & _ & _ & Htrace). by rewrite Hrefs, Htrace.
Qed.

(** C8: the canonical set is built once, before the engine is entered, and
    no invocation of a transform writes it: from any store in which the set
    is intact, a blob transform, a tree transform and any traversal leave its
    elements and their order as they were; so it is still intact when the
    command ends. *)
Theorem canonical_set_never_mutated (w : world) (s0 : state) :
  let filter := rewriter_filter w in
  let tracked := length (sets s0) in
  let canonical := dedup_first (canonical_lines filter) in
  (∃ s1, trackedFromExportFilter filter s0 = (Val tracked, s1) ∧
         sets s1 !! tracked = Some canonical) ∧
  (∀ s, sets s !! tracked = Some canonical →
     (∀ path b, sets (BlobFn filter path b s).2 !! tracked = Some canonical) ∧
     (∀ path t, sets (TreeCallbackFn tracked path t s).2 !! tracked = Some canonical) ∧
     (∀ vs, sets (rewrite_objects
                    (mkRewriteOptions (migrateVerbose w) (objectMapFilePath w)
                       (BlobFn filter) (TreeCallbackFn tracked) true) vs s).2
              !! tracked = Some canonical)) ∧
  (database_error w = None → Include filter ≠ [] →
   sets (migrateExportCommand w s0).2 !! tracked = Some canonical).
Proof.
  intros filter tracked canonical. split; [|split].
  - eexists. split; [apply trackedFromExportFilter_run|]. apply lookup_fresh.
  - intros s Hs. split; [|split].
    + intros path b. by destruct (BlobFn_state filter path b s) as [r ->].
    + intros path t.
      by destruct (TreeCallbackFn_total tracked path t s canonical Hs)
        as (r & s' & -> & _ & ? & _).
    + intros vs.
      by destruct (rewrite_objects_total
                     (mkRewriteOptions (migrateVerbose w) (objectMapFilePath w)
                        (BlobFn filter) (TreeCallbackFn tracked) true)
                     filter tracked vs s canonical eq_refl eq_refl Hs)
        as (r & s' & -> & _ & ?).
  - subst filter tracked canonical. intros Hdb Hinc.
    rewrite migrateExportCommand_run, Hdb.
    destruct (Include (rewriter_filter w)) as [|p ps] eqn:E; [done|].
    cbn [length].
    replace (Z.of_nat (S (length ps)) <=? 0)%Z with false
      by (symmetry; apply Z.leb_gt; lia).
    cbv zeta. destruct (engine_phase w s0) as (r & s2 & -> & _ & Hs2).
    destruct r as [[]|err]; [|done].
    destruct (bare_answer w).1; [done|].
    by destruct (checkout_error w).
Qed.

(** C9, as the code has it: the handle is released when the command returns;
    when the command ends in a fatal error (no database, empty include list,
    failed rewrite, failed checkout) the process exits where the error is
    raised and the deferred release does not run, so a handle that was
    acquired is still open. *)
Theorem db_handle_released_on_return_only (w : world) (db : gmap oid object) :
  match (migrateExportCommand w (initial db)).1 with
  | Val _ =>
      db_handle (migrateExportCommand w (initial db)).2 = Closed ∧
      log_closed (migrateExportCommand w (initial db)).2 = true
  | Exit status _ =>
      status ≠ 0%Z ∧
      db_handle (migrateExportCommand w (initial db)).2
      = match database_error w with
        | Some _ => NotAcquired
        | None => Open
        end
  end.
Proof.
  rewrite migrateExportCommand_run.
  destruct (database_error w) as [err|]; [done|].
  destruct (Z.of_nat _ <=? 0)%Z; [done|]. cbv zeta.
  destruct (engine_phase w (initial db)) as (r & s2 & -> & Hframe & _).
  destruct Hframe as (_ & Hhandle & _). simpl in Hhandle.
  destruct r as [[]|err]; [|done].
  destruct (bare_answer w).1; [done|].
  by destruct (checkout_error w).
Qed.

(** C10: when [git.IsBare] fails after a successful rewrite and hands back
    [false] with its error, the error is dropped: the checkout is called
    right after the rewrite, and the command behaves exactly as if [IsBare]
    had answered [false] without an error. *)
Theorem IsBare_error_discarded (w : world) (s : state) (err : error) :
  bare_answer w = (false, Some err) →
  refs_updated s = false →
  refs_updated (migrateExportCommand w s).2 = true →
  trace (migrateExportCommand w s).2
  = trace s ++ [EvRewrite; EvCheckout] ++
    match checkout_error w with Some e => [EvFatal e] | None => [] end ∧
  migrateExportCommand w s
  = migrateExportCommand (set_bare_answer (false, None) w) s.
Proof.
  intros Hbare Hs Hrefs. split.
  - revert Hrefs. rewrite migrateExportCommand_run, Hbare.
    destruct (database_error w) as [e|]; [simpl; congruence|].
    destruct (Z.of_nat _ <=? 0)%Z; [simpl; congruence|]. cbv zeta.
    destruct (engine_phase w s) as (r & s2 & -> & Hframe & _).
    destruct Hframe as (Hr & _ & _ & Htrace). simpl in Hr, Htrace.
    destruct r as [[]|e]; [|simpl; congruence]. intros _. cbn [fst].
    destruct (checkout_error w) as [e|]; simpl; rewrite Htrace;
      by rewrite <- !app_assoc.
  - rewrite !migrateExportCommand_run. simpl. by rewrite Hbare.
Qed.

(** An empty include list and a failed checkout do end the process. *)
Lemma fatal_paths (w : world) (s : state) :
  let r := migrateExportCommand w s in
  (database_error w = None → Include (rewriter_filter w) = [] →
   r.1 = Exit fatal_status
           "fatal: one or more files must be specified with --include") ∧
  (∀ err, (bare_answer w).1 = false → checkout_error w = Some err →
          ∃ msg, r.1 = Exit fatal_status msg).
Proof.
  cbv zeta. rewrite migrateExportCommand_run. split.
  - by intros -> ->.
  - intros err Hbare Hcheckout.
    destruct (database_error w) as [e|]; [by eexists|].
    destruct (Z.of_nat _ <=? 0)%Z; [by eexists|]. cbv zeta.
    destruct (engine_phase w s) as (r & s2 & -> & _).
    destruct r as [[]|e]; [|by eexists].
    rewrite Hbare, Hcheckout. by eexists.
Qed.

(** What [IsBare] hands back next to an error is used as it is; the error
    never matters. *)
Lemma IsBare_error_ignored (w : world) (s : state) (bare : bool) (err : error) :
  bare_answer w = (bare, Some err) →
  migrateExportCommand w s
  = migrateExportCommand (set_bare_answer (bare, None) w) s.
Proof. intros H. rewrite !migrateExportCommand_run. simpl. by rewrite H. Qed.

(** *** The command: further paths *)

Lemma include_check {A : Type} (l : list A) :
  (Z.of_nat (length l) <=? 0)%Z = bool_decide (l = []).
Proof. by destruct l. Qed.

(** X1: when the object database cannot be opened, the command ends the
    process with that error, before the include list is even looked at:
    no handle is acquired and nothing else is done. *)
Theorem database_failure_is_fatal (w : world) (s : state) (err : error) :
  database_error w = Some err →
  migrateExportCommand w s = (Exit fatal_status err, emit (EvFatal err) s) ∧
  db_handle (migrateExportCommand w s).2 = db_handle s ∧
  sets (migrateExportCommand w s).2 = sets s ∧
  objects (migrateExportCommand w s).2 = objects s.
Proof. intros H. rewrite migrateExportCommand_run, H. by repeat split. Qed.

(** X2: in a bare repository the checkout is not called: no checkout is
    recorded, and the run is the same whatever the checkout would have
    answered. *)
Theorem bare_repository_skips_checkout (w : world) (s : state)
    (e : option error) :
  (bare_answer w).1 = true →
  EvCheckout ∉ trace s →
  (EvCheckout ∉ trace (migrateExportCommand w s).2) ∧
  migrateExportCommand (set_checkout_error e w) s = migrateExportCommand w s.
Proof.
  intros Hbare Hs. split.
  - rewrite migrateExportCommand_run.
    destruct (database_error w) as [err|].
    { simpl. rewrite not_elem_of_app. split; [done|].
      by intros [=]%list_elem_of_singleton. }
    destruct (Z.of_nat _ <=? 0)%Z.
    { simpl. rewrite not_elem_of_app. split; [done|].
      by intros [=]%list_elem_of_singleton. }
    cbv zeta. destruct (engine_phase w s) as (r & s2 & -> & Hframe & _).
    destruct Hframe as (_ & _ & _ & Htrace). simpl in Htrace.
    assert (EvCheckout ∉ trace s2) as Hs2.
    { rewrite Htrace, not_elem_of_app. split; [done|].
      by intros [=]%list_elem_of_singleton. }
    destruct r as [[]|err].
    + by rewrite Hbare.
    + simpl. rewrite not_elem_of_app. split; [done|].
      by intros [=]%list_elem_of_singleton.
  - rewrite !migrateExportCommand_run. simpl.
    destruct (database_error w); [done|].
    destruct (Z.of_nat _ <=? 0)%Z; [done|]. cbv zeta.
    destruct (rewrite_objects _ _ _) as [[[[]|err]|c msg] s2]; [|done..].
    by rewrite Hbare.
Qed.

(** X3: when the checkout fails after the rewrite has succeeded, the command
    ends the process with the checkout error although the refs already point
    to the rewritten history. *)
Theorem checkout_failure_after_rewrite (w : world) (s : state) (err : error) :
  (bare_answer w).1 = false →
  checkout_error w = Some err →
  refs_updated s = false →
  refs_updated (migrateExportCommand w s).2 = true →
  (migrateExportCommand w s).1 = Exit fatal_status err ∧
  trace (migrateExportCommand w s).2
  = trace s ++ [EvRewrite; EvCheckout; EvFatal err].
Proof.
  intros Hbare Hcheckout Hs. rewrite migrateExportCommand_run.
  destruct (database_error w) as [e|]; [simpl; congruence|].
  destruct (Z.of_nat _ <=? 0)%Z; [simpl; congruence|]. cbv zeta.
  destruct (engine_phase w s) as (r & s2 & -> & Hframe & _).
  destruct Hframe as (Hrefs & _ & _ & Htrace). simpl in Hrefs, Htrace.
  destruct r as [[]|e]; [|simpl; congruence].
  rewrite Hbare, Hcheckout. intros _. split; [done|].
  simpl. rewrite Htrace. by rewrite <- !app_assoc.
Qed.

(** X4: the checkout is never called unless the refs have been updated: a
    run in which [git.Checkout] was called is a run whose rewrite
    succeeded. *)
Theorem checkout_only_after_refs_updated (w : world) (s : state) :
  EvCheckout ∉ trace s →
  EvCheckout ∈ trace (migrateExportCommand w s).2 →
  refs_updated (migrateExportCommand w s).2 = true.
Proof.
  intros Hs. rewrite migrateExportCommand_run.
  assert (∀ e, EvCheckout ∉ [EvFatal e]) as Hfatal
    by (by intros e [=]%list_elem_of_singleton).
  destruct (database_error w) as [e|].
  { simpl. rewrite elem_of_app. intros [?|?]; [done|by apply Hfatal in H]. }
  destruct (Z.of_nat _ <=? 0)%Z.
  { simpl. rewrite elem_of_app. intros [?|?]; [done|by apply Hfatal in H]. }
  cbv zeta. destruct (engine_phase w s) as (r & s2 & -> & Hframe & _).
  destruct Hframe as (_ & _ & _ & Htrace). simpl in Htrace.
  destruct r as [[]|e].
  - destruct (bare_answer w).1; [done|]. by destruct (checkout_error w).
  - simpl. rewrite Htrace, !elem_of_app.
    intros [[?|[=]%list_elem_of_singleton]|?]; [done|by apply Hfatal in H].
Qed.

(** X5: the rewrite engine is entered exactly when the database could be
    opened and the include list is not empty. *)
Theorem engine_entered_iff (w : world) (s : state) :
  EvRewrite ∉ trace s →
  (EvRewrite ∈ trace (migrateExportCommand w s).2
   ↔ database_error w = None ∧ Include (rewriter_filter w) ≠ []).
Proof.
  intros Hs. rewrite migrateExportCommand_run.
  assert (∀ e, EvRewrite ∉ [EvFatal e]) as Hfatal
    by (by intros e [=]%list_elem_of_singleton).
  destruct (database_error w) as [e|].
  { simpl. rewrite elem_of_app. split; [|by intros [[=] _]].
    intros [?|?]; [done|by apply Hfatal in H]. }
  rewrite include_check. case_bool_decide as Hinc.
  { simpl. rewrite elem_of_app. split; [|by intros [_ ?]].
    intros [?|?]; [done|by apply Hfatal in H]. }
  cbv zeta. destruct (engine_phase w s) as (r & s2 & -> & Hframe & _).
  destruct Hframe as (_ & _ & _ & Htrace). simpl in Htrace.
  assert (EvRewrite ∈ trace s2) as Hs2.
  { rewrite Htrace, elem_of_app. right. by apply list_elem_of_singleton. }
  split; [done|]. intros _.
  destruct r as [[]|e]; simpl.
  - destruct (bare_answer w).1; [done|].
    destruct (checkout_error w); simpl; rewrite ?elem_of_app; auto.
  - rewrite elem_of_app. by left.
Qed.

(** X16: every way the command ends the process goes through
    [ExitWithError]: the status is the fatal one and the message is the last
    thing reported.  In particular no ordered set is ever used through a nil
    reference. *)
Theorem exits_are_reported (w : world) (s : state) (status : Z) (msg : string) :
  (migrateExportCommand w s).1 = Exit status msg →
  status = fatal_status ∧
  last (trace (migrateExportCommand w s).2) = Some (EvFatal msg).
Proof.
  rewrite migrateExportCommand_run.
  destruct (database_error w) as [e|].
  { simpl. intros [= <- <-]. by rewrite last_snoc. }
  destruct (Z.of_nat _ <=? 0)%Z.
  { simpl. intros [= <- <-]. by rewrite last_snoc. }
  cbv zeta. destruct (engine_phase w s) as (r & s2 & -> & _).
  destruct r as [[]|e].
  - destruct (bare_answer w).1; [done|].
    destruct (checkout_error w); [|done].
    simpl. intros [= <- <-]. by rewrite last_snoc.
  - simpl. intros [= <- <-]. by rewrite last_snoc.
Qed.

(** *** The canonical attribute lines: shape and size *)

Lemma dedup_from_ext (seen seen' l : list string) :
  (∀ x, x ∈ l → (x ∈ seen ↔ x ∈ seen')) →
  dedup_from seen l = dedup_from seen' l.
Proof.
  revert seen seen'. induction l as [|y l IH]; intros seen seen' H; [done|].
  simpl. assert (y ∈ seen ↔ y ∈ seen') as Hy by (apply H; by left).
  assert (dedup_from (seen ++ [y]) l = dedup_from (seen' ++ [y]) l) as Hrec.
  { apply IH. intros x Hx. rewrite !elem_of_app.
    pose proof (H x (list_elem_of_further _ _ _ Hx)) as Hx'.
    split; (intros [?|?]; [left; by apply Hx'|by right]). }
  case_bool_decide as H1; case_bool_decide as H2.
  - apply IH. intros x Hx. apply H. by right.
  - exfalso. by apply H2, Hy.
  - exfalso. by apply H1, Hy.
  - by rewrite Hrec.
Qed.

Lemma dedup_from_app (seen a b : list string) :
  dedup_from seen (a ++ b)
  = dedup_from seen a ++ dedup_from (seen ++ dedup_from seen a) b.
Proof.
  revert seen. induction a as [|x a IH]; intros seen; simpl.
  - by rewrite app_nil_r.
  - case_bool_decide; [apply IH|].
    rewrite IH, <- app_assoc. done.
Qed.

Lemma dedup_from_length (seen l : list string) :
  (length (dedup_from seen l) ≤ length l)%nat.
Proof.
  revert seen. induction l as [|x l IH]; intros seen; simpl; [done|].
  case_bool_decide; simpl.
  - specialize (IH seen). lia.
  - specialize (IH (seen ++ [x])). lia.
Qed.

Lemma canonical_lines_split (filter : Filter) :
  dedup_first (canonical_lines filter)
  = dedup_first (map export_line (Include filter)) ++
    dedup_first (map track_line (Exclude filter)).
Proof.
  unfold canonical_lines, dedup_first. rewrite dedup_from_app. f_equal.
  apply dedup_from_ext. intros x Hx. simpl. split; [|by intros ?%elem_of_nil].
  intros Hin. exfalso.
  apply (dedup_first_elem_of (map export_line (Include filter)) x) in Hin.
  apply list_elem_of_In, in_map_iff in Hin as (p & <- & _).
  apply list_elem_of_In, in_map_iff in Hx as (q & Hq & _).
  symmetry in Hq. by apply export_line_ne_track_line in Hq.
Qed.

(** X6: include lines and exclude lines never collapse into each other: the
    set built by [trackedFromExportFilter] is the include lines without
    repetition followed by the exclude lines without repetition, so a pattern
    that is both included and excluded gets its two lines. *)
Theorem trackedFromExportFilter_includes_then_excludes (filter : Filter)
    (s : state) :
  trackedFromExportFilter filter s
  = (Val (length (sets s)),
     set_sets (λ h, h ++ [dedup_first (map export_line (Include filter)) ++
                          dedup_first (map track_line (Exclude filter))]) s) ∧
  (∀ p, p ∈ Include filter → p ∈ Exclude filter →
     export_line p ∈ dedup_first (map export_line (Include filter)) ∧
     track_line p ∈ dedup_first (map track_line (Exclude filter)) ∧
     export_line p ≠ track_line p).
Proof.
  split.
  - rewrite trackedFromExportFilter_run. by rewrite canonical_lines_split.
  - intros p Hi He. rewrite !dedup_first_elem_of, !list_elem_of_In.
    split; [|split].
    + apply in_map. by apply list_elem_of_In.
    + apply in_map. by apply list_elem_of_In.
    + apply export_line_ne_track_line.
Qed.

(** X7: the set built by [trackedFromExportFilter] has at most k1 + k2 lines,
    is empty only for the filter without patterns, and, when there is an
    include pattern, starts with the export line of the first one. *)
Theorem trackedFromExportFilter_bounds (filter : Filter) (s s' : state)
    (tracked : ref) (elems : list string) :
  trackedFromExportFilter filter s = (Val tracked, s') →
  sets s' !! tracked = Some elems →
  (length elems ≤ length (Include filter) + length (Exclude filter))%nat ∧
  (elems = [] ↔ Include filter = [] ∧ Exclude filter = []) ∧
  (∀ p ps, Include filter = p :: ps →
           head elems = Some (escapeAttrPattern p +:+ " text -filter -merge -diff")).
Proof.
  rewrite trackedFromExportFilter_run. intros [= <- <-]. simpl.
  rewrite lookup_fresh. intros [= <-].
  unfold canonical_lines, dedup_first. split; [|split].
  - etrans; [apply dedup_from_length|]. by rewrite length_app, !length_map.
  - destruct (Include filter) as [|p ps], (Exclude filter) as [|q qs];
      simpl; split; try done; by intros [? ?].
  - by intros p ps ->.
Qed.

(** *** The blob transform: sizes and nested attribute files *)

(** X8: [BlobFn] keeps blobs well-formed: given a blob whose size is the
    length of its contents, the blob it returns has that property too; and
    it never touches the store. *)
Theorem BlobFn_keeps_size (filter : Filter) (path : string) (b b' : Blob)
    (s s' : state) :
  Size b = Z.of_nat (String.length (Contents b)) →
  BlobFn filter path b s = (Val (Ok b'), s') →
  Size b' = Z.of_nat (String.length (Contents b')) ∧ s' = s.
Proof.
  intros Hb. unfold BlobFn. case_bool_decide.
  - rewrite ret_run. by intros [= <- <-].
  - destruct (smudge _ _ _ _) as [buf [e|]]; rewrite ret_run; [done|].
    by intros [= <- <-].
Qed.

Lemma occurs_app (c : ascii) (a b : string) :
  occurs c (a +:+ b) = occurs c a || occurs c b.
Proof. induction a as [|x a IH]; simpl; [done|]. by rewrite IH, orb_assoc. Qed.

Lemma strip_trailing_slashes_name (name : string) :
  occurs "/" name = false → strip_trailing_slashes name = name.
Proof.
  induction name as [|c name IH]; [done|]. simpl.
  intros [Hc Hname]%orb_false_elim. rewrite IH by done.
  destruct name; [|done]. by rewrite Hc.
Qed.

Lemma strip_trailing_slashes_app (a b : string) :
  b ≠ "" → strip_trailing_slashes b = b →
  strip_trailing_slashes (a +:+ b) = a +:+ b.
Proof.
  intros Hb Hstrip. induction a as [|c a IH]; [done|].
  change (String c a +:+ b) with (String c (a +:+ b)).
  cbn [strip_trailing_slashes]. rewrite IH.
  destruct (a +:+ b) eqn:E; [|done].
  destruct a; simpl in E; [by subst|discriminate].
Qed.

Lemma last_element_name (name : string) :
  occurs "/" name = false → last_element name = (name, false).
Proof.
  induction name as [|c name IH]; [done|]. simpl.
  intros [Hc Hname]%orb_false_elim. rewrite IH by done. by rewrite Hc.
Qed.

Lemma last_element_app (a b tail : string) :
  last_element b = (tail, true) → last_element (a +:+ b) = (tail, true).
Proof.
  intros Hb. induction a as [|c a IH]; [done|].
  change (String c a +:+ b) with (String c (a +:+ b)).
  cbn [last_element]. by rewrite IH.
Qed.

Lemma Base_after_separator (dir name : string) :
  occurs "/" name = false → name ≠ "" →
  Base (dir +:+ "/" +:+ name) = name.
Proof.
  intros Hname Hne. unfold Base.
  rewrite bool_decide_eq_false_2 by (destruct dir; discriminate).
  rewrite strip_trailing_slashes_app; cycle 1.
  { discriminate. }
  { apply (strip_trailing_slashes_app "/" name Hne).
    by apply strip_trailing_slashes_name. }
  rewrite (last_element_app dir _ name); cycle 1.
  { simpl. by rewrite last_element_name. }
  simpl. by rewrite bool_decide_eq_false_2.
Qed.

(** X9: the base name of a path that ends in a separator-free, non-empty
    name is that name, with or without a directory in front. *)
Theorem Base_of_name (name : string) :
  occurs "/" name = false → name ≠ "" →
  Base name = name ∧ ∀ dir, Base (dir +:+ "/" +:+ name) = name.
Proof.
  intros Hname Hne. split; [|intros dir; by apply Base_after_separator].
  unfold Base. rewrite bool_decide_eq_false_2 by done.
  rewrite strip_trailing_slashes_name, last_element_name by done.
  simpl. by rewrite bool_decide_eq_false_2.
Qed.

Lemma last_element_no_separator (path : string) :
  occurs "/" (last_element path).1 = false ∧
  ((last_element path).2 = false → (last_element path).1 = path).
Proof.
  induction path as [|c path [IH1 IH2]]; [done|]. simpl.
  destruct (last_element path) as [tail found]. simpl in *.
  destruct found; [done|]. specialize (IH2 eq_refl). subst tail.
  case_bool_decide as Hc; simpl; [done|].
  split; [|done]. by rewrite bool_decide_eq_false_2.
Qed.

(** X10: a base name is never empty, and it holds no separator unless it is
    the separator itself. *)
Theorem Base_is_an_element (path : string) :
  Base path ≠ "" ∧ (Base path = "/" ∨ occurs "/" (Base path) = false).
Proof.
  unfold Base. case_bool_decide; [split; [done|by right]|].
  case_bool_decide as Hempty; [split; [done|by left]|].
  split; [done|]. right. apply last_element_no_separator.
Qed.

(** X11: the attribute file of any directory, not only the one at the root,
    passes through [BlobFn] unchanged. *)
Theorem BlobFn_nested_gitattributes (filter : Filter) (dir : string)
    (b : Blob) (s : state) :
  BlobFn filter (dir +:+ "/.gitattributes") b s = (Val (Ok b), s) ∧
  BlobFn filter ".gitattributes" b s = (Val (Ok b), s).
Proof.
  split; [|done]. unfold BlobFn.
  change (dir +:+ "/.gitattributes") with (dir +:+ "/" +:+ ".gitattributes").
  by rewrite (Base_after_separator dir ".gitattributes").
Qed.

(** *** The tree transform: failed writes and repeated runs *)

(** X12: when the merged attribute blob cannot be stored, the root call of
    [TreeCallbackFn] returns that error and no tree, and the object database
    and the canonical set are as they were. *)
Theorem TreeCallbackFn_write_failure (tracked : ref) (t : Tree) (s : state)
    (canonical file : list string) (err : error) :
  sets s !! tracked = Some canonical →
  attribute_file_lines s t file →
  write_fault (ObjBlob (serialize (OrderedSet.union (dedup_first file) canonical)))
  = Some err →
  ∃ s', TreeCallbackFn tracked "/" t s = (Val (Err err), s') ∧
        objects s' = objects s ∧
        sets s' !! tracked = Some canonical.
Proof.
  intros Htracked Hfile Hwrite.
  rewrite (TreeCallbackFn_root_run _ _ _ _ _ Htracked Hfile), Hwrite.
  eexists. split; [done|]. split; [done|]. by apply lookup_live_app.
Qed.

Lemma lines_cons (l rest : string) :
  occurs LF l = false → lines (l +:+ String LF rest) = l :: lines rest.
Proof.
  induction l as [|c l IH]; intros Hl.
  - done.
  - change (String c l +:+ String LF rest) with (String c (l +:+ String LF rest)).
    simpl in Hl. apply orb_false_elim in Hl as [Hc Hl].
    cbn [lines]. rewrite Hc, IH by done. done.
Qed.

(** Reading back what was written gives the lines that were written. *)
Lemma lines_serialize (ls : list string) :
  Forall (λ l, occurs LF l = false) ls → lines (serialize ls) = ls.
Proof.
  induction 1 as [|l ls Hl _ IH]; [done|].
  simpl. by rewrite lines_cons, IH.
Qed.

(** No line holds a line feed. *)
Lemma lines_no_line_feed (contents : string) :
  Forall (λ l, occurs LF l = false) (lines contents).
Proof.
  induction contents as [|c contents IH]; [constructor|]. simpl.
  case_bool_decide as Hc; [by constructor|].
  destruct (lines contents) as [|l ls].
  - constructor; [|constructor]. simpl. by rewrite bool_decide_eq_false_2.
  - apply Forall_cons in IH as [Hl Hls]. constructor; [|done].
    simpl. by rewrite bool_decide_eq_false_2.
Qed.

Lemma find_Merge (t : Tree) (e : TreeEntry) :
  find (λ x, bool_decide (Name x = Name e)) (Entries (Merge t e)) = Some e.
Proof.
  unfold Merge. destruct (existsb _ _) eqn:E; simpl.
  - induction (Entries t) as [|x l IH]; [discriminate|]. simpl in *.
    case_bool_decide as Hx.
    + by rewrite bool_decide_eq_true_2.
    + rewrite bool_decide_eq_false_2 by done. by apply IH.
  - induction (Entries t) as [|x l IH]; simpl in *.
    + by rewrite bool_decide_eq_true_2.
    + apply orb_false_elim in E as [Hx E]. rewrite Hx. by apply IH.
Qed.

Lemma Merge_Merge (t : Tree) (e : TreeEntry) : Merge (Merge t e) e = Merge t e.
Proof.
  assert (existsb (λ x, bool_decide (Name x = Name e)) (Entries (Merge t e)) = true)
    as Hex.
  { apply existsb_exists. exists e. split.
    - apply list_elem_of_In, Merge_entry_elem_of.
    - by apply bool_decide_eq_true_2. }
  unfold Merge at 1. rewrite Hex.
  transitivity (mkTree (Entries (Merge t e))); [|by destruct (Merge t e)].
  f_equal. etrans; [|apply map_id].
  apply map_ext_in. intros x Hx. case_bool_decide as Hn; [|done].
  symmetry. apply (Merge_named t e x); [by apply list_elem_of_In|done].
Qed.

Lemma union_absorbs (elems other : list string) :
  (∀ x, x ∈ other → x ∈ elems) → OrderedSet.union elems other = elems.
Proof.
  intros H. rewrite union_dedup_from.
  assert (dedup_from elems other = []) as ->; [|by rewrite app_nil_r].
  induction other as [|x other IH]; [done|]. simpl.
  rewrite bool_decide_eq_true_2 by (apply H; by left).
  apply IH. intros y Hy. apply H. by right.
Qed.

(** X13: the root call of [TreeCallbackFn] is idempotent.  Run on the tree it
    has just returned, it returns that tree again, with the same attribute
    blob, and stores nothing new; it holds when no canonical line contains a
    line feed. *)
Theorem TreeCallbackFn_idempotent (tracked : ref) (t t' : Tree) (s s' : state)
    (canonical file : list string) :
  sets s !! tracked = Some canonical →
  attribute_file_lines s t file →
  Forall (λ l, occurs LF l = false) canonical →
  TreeCallbackFn tracked "/" t s = (Val (Ok t'), s') →
  ∃ s'', TreeCallbackFn tracked "/" t' s' = (Val (Ok t'), s'') ∧
         objects s'' = objects s'.
Proof.
  intros Htracked Hfile Hcanon.
  rewrite (TreeCallbackFn_root_run _ _ _ _ _ Htracked Hfile).
  set (merged := OrderedSet.union (dedup_first file) canonical).
  set (blob := ObjBlob (serialize merged)).
  set (entry := mkTreeEntry ".gitattributes" mode_regular (object_id blob)).
  destruct (write_fault blob) as [err|] eqn:Hwrite; [done|].
  intros [= <- <-].
  assert (NoDup merged) as Hnodup.
  { unfold merged. rewrite union_dedup_from.
    apply dedup_from_NoDup, dedup_first_NoDup. }
  assert (∀ x, x ∈ merged ↔ x ∈ file ∨ x ∈ canonical) as Hin.
  { intros x. unfold merged. rewrite union_dedup_from, dedup_from_elem_of.
    by rewrite dedup_first_elem_of. }
  assert (Forall (λ l, occurs LF l = false) file) as Hfile_lf.
  { destruct Hfile; [constructor|apply lines_no_line_feed]. }
  assert (Forall (λ l, occurs LF l = false) merged) as Hmerged_lf.
  { apply Forall_forall. intros x [Hx|Hx]%Hin.
    - by eapply Forall_forall in Hfile_lf.
    - by eapply Forall_forall in Hcanon. }
  match goal with |- context [TreeCallbackFn _ _ _ ?st] => set (s1 := st) end.
  assert (attribute_file_lines s1 (Merge t entry) (lines (serialize merged)))
    as Hfile'.
  { apply (attribute_file_present s1 (Merge t entry) entry (serialize merged)).
    - apply (find_Merge t entry).
    - simpl. apply lookup_insert_eq. }
  assert (sets s1 !! tracked = Some canonical) as Htracked'.
  { simpl. by apply lookup_live_app. }
  rewrite (TreeCallbackFn_root_run _ _ _ _ _ Htracked' Hfile').
  rewrite (lines_serialize merged Hmerged_lf), (dedup_first_id merged Hnodup).
  rewrite (union_absorbs merged canonical) by (intros x Hx; apply Hin; by right).
  fold blob. rewrite Hwrite. fold entry. rewrite Merge_Merge.
  eexists. split; [done|]. simpl. apply insert_insert_eq.
Qed.

(** *** The command: what a return means *)

(** X14: the command returns only after full success: the database was
    opened, the include list was not empty, the refs point to the rewritten
    history, the handle and the logger are closed, and what was called is the
    engine and then, unless the repository is bare, a checkout that did not
    fail. *)
Theorem return_means_success (w : world) (s : state) :
  (migrateExportCommand w s).1 = Val tt →
  database_error w = None ∧
  Include (rewriter_filter w) ≠ [] ∧
  refs_updated (migrateExportCommand w s).2 = true ∧
  db_handle (migrateExportCommand w s).2 = Closed ∧
  log_closed (migrateExportCommand w s).2 = true ∧
  trace (migrateExportCommand w s).2
  = trace s ++ EvRewrite :: (if (bare_answer w).1 then [] else [EvCheckout]) ∧
  ((bare_answer w).1 = false → checkout_error w = None).
Proof.
  rewrite migrateExportCommand_run.
  destruct (database_error w) as [e|]; [done|].
  rewrite include_check. case_bool_decide as Hinc; [done|]. cbv zeta.
  destruct (engine_phase w s) as (r & s2 & -> & Hframe & _).
  destruct Hframe as (_ & _ & _ & Htrace). simpl in Htrace.
  destruct r as [[]|e]; [|done].
  destruct (bare_answer w).1.
  - intros _. simpl. rewrite Htrace. by repeat split.
  - destruct (checkout_error w) as [e|]; [done|].
    intros _. simpl. rewrite Htrace, <- app_assoc. by repeat split.
Qed.

Lemma strip_trailing_slashes_separator (path : string) :
  strip_trailing_slashes (path +:+ "/") = strip_trailing_slashes path.
Proof.
  induction path as [|c path IH]; [done|].
  change (String c path +:+ "/") with (String c (path +:+ "/")).
  cbn [strip_trailing_slashes]. by rewrite IH.
Qed.

(** X15: a separator at the end of a non-empty path does not change its base
    name, so [BlobFn] treats "dir/.gitattributes/" as it treats
    "dir/.gitattributes". *)
Theorem Base_ignores_trailing_separator (path : string) :
  path ≠ "" → Base (path +:+ "/") = Base path.
Proof.
  intros Hpath. unfold Base.
  rewrite (bool_decide_eq_false_2 (path = "")) by done.
  rewrite bool_decide_eq_false_2 by (destruct path; discriminate).
  by rewrite strip_trailing_slashes_separator.
Qed.

End MigrateExport.

(** * Concrete runs *)

(** Scenario A: one include pattern, no attribute file at the root. *)
Example scenario_A :
  (TreeCallbackFn example_object_id example_write_fault 0 "/" (mkTree [])
     (mkState [example_canonical] ∅ false Open false [])).1
  = Val (Ok (mkTree [mkTreeEntry ".gitattributes" 33188
                       ("blob *.bin text -filter -merge -diff" +:+ String LF "")])).
Proof. reflexivity. Qed.

(** Scenario B: a space in a pattern is escaped. *)
Example scenario_B :
  export_line escapeAttrPattern_spec "a b.txt" = "a\ b.txt text -filter -merge -diff".
Proof. reflexivity. Qed.

(** A root tree whose attribute blob is missing: the read error comes back as
    it is and the store is untouched. *)
Example unreadable_attributes :
  TreeCallbackFn example_object_id example_write_fault 0 "/"
    (mkTree [mkTreeEntry ".gitattributes" 33188 "gone"]) example_store
  = (Val (Err "git/odb: could not read blob gone"), example_store).
Proof. reflexivity. Qed.

Example Base_examples :
  map Base ["a/b/.gitattributes"; ".gitattributes"; ""; "///"; "a/b/"; "x"]
  = [".gitattributes"; ".gitattributes"; "."; "/"; "b"; "x"].
Proof. reflexivity. Qed.

Example mode_regular_value : mode_regular = 33188%Z.
Proof. reflexivity. Qed.

Lemma trackedFromExportFilter_lines_witness :
  ∃ tracked s' elems,
    trackedFromExportFilter escapeAttrPattern_spec
      (mkFilter ["*.bin"; "a b.txt"] ["*.psd"]) (initial ∅) = (Val tracked, s') ∧
    sets s' !! tracked = Some elems ∧
    elems = ["*.bin text -filter -merge -diff";
             "a\ b.txt text -filter -merge -diff";
             "*.psd filter=lfs diff=lfs merge=lfs -text"] ∧
    length elems = 2 + 1.
Proof.
  destruct (trackedFromExportFilter_lines escapeAttrPattern_spec
              (mkFilter ["*.bin"; "a b.txt"] ["*.psd"]) (initial ∅))
    as (tracked & s' & elems & Hrun & Hlookup & _ & _ & _ & _ & Hcount).
  exists tracked, s', elems. split; [exact Hrun|]. split; [exact Hlookup|].
  apply Hcount; compute_done.
Defined.

Lemma BlobFn_gitattributes_identity_witness :
  Base "docs/.gitattributes" = ".gitattributes" ∧
  BlobFn example_smudge (mkFilter ["*.bin"] []) "docs/.gitattributes"
    (mkBlob "bad" 3) (initial ∅)
  = (Val (Ok (mkBlob "bad" 3)), initial ∅).
Proof.
  split; [reflexivity|].
  apply BlobFn_gitattributes_identity. reflexivity.
Defined.

Lemma BlobFn_resolved_witness :
  Base "assets/a.bin" ≠ ".gitattributes" ∧
  BlobFn example_smudge (mkFilter ["*.bin"] []) "assets/a.bin"
    (mkBlob "oid sha256:4d7a" 15) (initial ∅)
  = (Val (Ok (mkBlob "resolved oid sha256:4d7a" 24)), initial ∅).
Proof.
  split; [vm_compute; discriminate|].
  apply (BlobFn_resolved example_smudge (mkFilter ["*.bin"] []) "assets/a.bin"
           (mkBlob "oid sha256:4d7a" 15) (initial ∅) "resolved oid sha256:4d7a").
  - vm_compute. discriminate.
  - reflexivity.
Defined.

Lemma TreeCallbackFn_non_root_identity_witness :
  "/assets" ≠ "/" ∧
  TreeCallbackFn example_object_id example_write_fault 0 "/assets"
    example_tree example_store
  = (Val (Ok example_tree), example_store).
Proof.
  split; [discriminate|].
  apply TreeCallbackFn_non_root_identity. discriminate.
Defined.

(** Scenario C: the existing line first, then the canonical line. *)
Lemma TreeCallbackFn_root_merges_witness :
  let merged := "*.psd filter=lfs diff=lfs merge=lfs -text" +:+ String LF
                  ("*.bin text -filter -merge -diff" +:+ String LF "") in
  ∃ t' s',
    TreeCallbackFn example_object_id example_write_fault 0 "/"
      example_tree example_store = (Val (Ok t'), s') ∧
    t' = mkTree [mkTreeEntry "a.bin" 33188 "pointer";
                 mkTreeEntry ".gitattributes" 33188 ("blob " +:+ merged)] ∧
    objects s' !! ("blob " +:+ merged) = Some (ObjBlob merged).
Proof.
  intros merged.
  destruct (TreeCallbackFn_root_merges example_object_id example_write_fault
              0 example_tree example_store example_canonical
              (lines example_attributes))
    as (t' & s' & Hrun & Htree & Hblob & _).
  - reflexivity.
  - apply NoDup_singleton.
  - apply (attribute_file_present example_store example_tree
             (mkTreeEntry ".gitattributes" 33188 "attributes") example_attributes);
      reflexivity.
  - reflexivity.
  - exists t', s'. split; [exact Hrun|]. split; [exact Htree|exact Hblob].
Defined.

Lemma empty_include_is_fatal_witness :
  Include (rewriter_filter example_world_no_include) = [] ∧
  ∃ s',
    migrateExportCommand escapeAttrPattern_spec example_smudge example_object_id
      example_write_fault example_world_no_include (initial example_db)
    = (Exit 2 "fatal: one or more files must be specified with --include", s') ∧
    trace s' = [EvFatal "fatal: one or more files must be specified with --include"] ∧
    objects s' = example_db ∧ refs_updated s' = false.
Proof.
  split; [reflexivity|].
  destruct (empty_include_is_fatal escapeAttrPattern_spec example_smudge
              example_object_id example_write_fault example_world_no_include
              (initial example_db))
    as (msg & s' & Hrun & _ & Hmsg & Htrace & Hobjects & _ & Hrefs).
  - reflexivity.
  - exists s'. rewrite Hmsg in Hrun, Htrace by reflexivity.
    split; [exact Hrun|]. split; [exact Htrace|]. split; [exact Hobjects|exact Hrefs].
Defined.

Lemma transform_failure_is_fatal_witness :
  let s1 :=
    mkState [example_canonical] example_db false Open false [EvRewrite] in
  transform_fails example_smudge (mkFilter ["*.bin"] []) s1
    (VisitBlob "a.bin" (mkBlob "bad" 3)) "missing object" ∧
  migrateExportCommand escapeAttrPattern_spec example_smudge example_object_id
    example_write_fault example_world_bad_pointer (initial example_db)
  = (Exit 2 "missing object", emit (EvFatal "missing object") s1) ∧
  refs_updated s1 = false.
Proof.
  intros s1.
  assert (transform_fails example_smudge (mkFilter ["*.bin"] []) s1
            (VisitBlob "a.bin" (mkBlob "bad" 3)) "missing object") as Hfails.
  { apply (blob_transform_fails example_smudge _ _ "a.bin" (mkBlob "bad" 3) "").
    - vm_compute. discriminate.
    - reflexivity. }
  split; [exact Hfails|].
  destruct (transform_failure_is_fatal escapeAttrPattern_spec example_smudge
              example_object_id example_write_fault example_world_bad_pointer
              (initial example_db) s1 [] [VisitTree "/" example_tree]
              (VisitBlob "a.bin" (mkBlob "bad" 3)) "missing object")
    as (_ & Hrun & Hrefs & _).
  - reflexivity.
  - discriminate.
  - reflexivity.
  - reflexivity.
  - exact Hfails.
  - split; [exact Hrun|exact Hrefs].
Defined.

Lemma canonical_set_never_mutated_witness :
  sets (TreeCallbackFn example_object_id example_write_fault 0 "/" example_tree
          example_store).2 !! 0
  = Some ["*.bin text -filter -merge -diff"] ∧
  sets (migrateExportCommand escapeAttrPattern_spec example_smudge
          example_object_id example_write_fault example_world
          (initial example_db)).2 !! 0
  = Some ["*.bin text -filter -merge -diff"].
Proof.
  destruct (canonical_set_never_mutated escapeAttrPattern_spec example_smudge
              example_object_id example_write_fault example_world
              (initial example_db))
    as (_ & Htransforms & Hcommand).
  split.
  - apply (Htransforms example_store). reflexivity.
  - apply Hcommand; [reflexivity|discriminate].
Defined.

Lemma IsBare_error_discarded_witness :
  bare_answer example_world = (false, Some "exit status 128") ∧
  trace (migrateExportCommand escapeAttrPattern_spec example_smudge
           example_object_id example_write_fault example_world
           (initial example_db)).2
  = [EvRewrite; EvCheckout].
Proof.
  split; [reflexivity|].
  apply (IsBare_error_discarded escapeAttrPattern_spec example_smudge
           example_object_id example_write_fault example_world
           (initial example_db) "exit status 128");
    reflexivity.
Defined.

(** The run without include patterns: the handle was acquired, the command
    has ended, and the handle has not been released. *)
Lemma db_handle_open_after_fatal :
  database_error example_world_no_include = None ∧
  migrateExportCommand escapeAttrPattern_spec example_smudge example_object_id
    example_write_fault example_world_no_include (initial example_db)
  = (Exit 2 "fatal: one or more files must be specified with --include",
     mkState [] example_db false Open false
       [EvFatal "fatal: one or more files must be specified with --include"]) ∧
  ¬ (∀ (w : world) (db : gmap oid object),
       database_error w = None →
       db_handle (migrateExportCommand escapeAttrPattern_spec example_smudge
                    example_object_id example_write_fault w (initial db)).2
       = Closed).
Proof.
  split; [reflexivity|]. split; [reflexivity|].
  intros H. specialize (H example_world_no_include example_db eq_refl).
  discriminate H.
Defined.

(** The successful run releases the handle. *)
Example db_handle_closed_on_return :
  let r := migrateExportCommand escapeAttrPattern_spec example_smudge
             example_object_id example_write_fault example_world
             (initial example_db) in
  r.1 = Val tt ∧ db_handle r.2 = Closed ∧ log_closed r.2 = true ∧
  refs_updated r.2 = true.
Proof. repeat split. Qed.

(** * Concrete runs of the further properties *)

Lemma database_failure_is_fatal_witness :
  database_error example_world_no_database = Some "not a git repository" ∧
  migrateExportCommand escapeAttrPattern_spec example_smudge example_object_id
    example_write_fault example_world_no_database (initial example_db)
  = (Exit 2 "not a git repository",
     mkState [] example_db false NotAcquired false
       [EvFatal "not a git repository"]).
Proof.
  split; [reflexivity|].
  apply (database_failure_is_fatal escapeAttrPattern_spec example_smudge
           example_object_id example_write_fault example_world_no_database
           (initial example_db) "not a git repository").
  reflexivity.
Defined.

Lemma bare_repository_skips_checkout_witness :
  (bare_answer example_world_bare).1 = true ∧
  EvCheckout ∉ trace (migrateExportCommand escapeAttrPattern_spec example_smudge
                        example_object_id example_write_fault example_world_bare
                        (initial example_db)).2.
Proof.
  split; [reflexivity|].
  apply (bare_repository_skips_checkout escapeAttrPattern_spec example_smudge
           example_object_id example_write_fault example_world_bare
           (initial example_db) None).
  - reflexivity.
  - apply not_elem_of_nil.
Defined.

Lemma checkout_failure_after_rewrite_witness :
  checkout_error example_world_checkout_fails = Some "index.lock exists" ∧
  (migrateExportCommand escapeAttrPattern_spec example_smudge example_object_id
     example_write_fault example_world_checkout_fails (initial example_db)).1
  = Exit 2 "index.lock exists" ∧
  trace (migrateExportCommand escapeAttrPattern_spec example_smudge
           example_object_id example_write_fault example_world_checkout_fails
           (initial example_db)).2
  = [EvRewrite; EvCheckout; EvFatal "index.lock exists"].
Proof.
  split; [reflexivity|].
  apply (checkout_failure_after_rewrite escapeAttrPattern_spec example_smudge
           example_object_id example_write_fault example_world_checkout_fails
           (initial example_db) "index.lock exists"); reflexivity.
Defined.

Lemma checkout_only_after_refs_updated_witness :
  refs_updated (migrateExportCommand escapeAttrPattern_spec example_smudge
                  example_object_id example_write_fault example_world
                  (initial example_db)).2 = true.
Proof.
  apply (checkout_only_after_refs_updated escapeAttrPattern_spec example_smudge
           example_object_id example_write_fault example_world
           (initial example_db)).
  - apply not_elem_of_nil.
  - vm_compute. apply list_elem_of_In. simpl. tauto.
Defined.

Lemma engine_entered_iff_witness :
  EvRewrite ∈ trace (migrateExportCommand escapeAttrPattern_spec example_smudge
                       example_object_id example_write_fault
                       example_world_bad_pointer (initial example_db)).2 ∧
  EvRewrite ∉ trace (migrateExportCommand escapeAttrPattern_spec example_smudge
                       example_object_id example_write_fault
                       example_world_no_include (initial example_db)).2.
Proof.
  split.
  - apply (engine_entered_iff escapeAttrPattern_spec example_smudge
             example_object_id example_write_fault example_world_bad_pointer
             (initial example_db)); [apply not_elem_of_nil|].
    split; [reflexivity|discriminate].
  - intros H.
    apply (engine_entered_iff escapeAttrPattern_spec example_smudge
             example_object_id example_write_fault example_world_no_include
             (initial example_db)) in H as [_ H]; [|apply not_elem_of_nil].
    apply H. reflexivity.
Defined.

Lemma exits_are_reported_witness :
  last (trace (migrateExportCommand escapeAttrPattern_spec example_smudge
                 example_object_id example_write_fault
                 example_world_bad_pointer (initial example_db)).2)
  = Some (EvFatal "missing object").
Proof.
  apply (exits_are_reported escapeAttrPattern_spec example_smudge
           example_object_id example_write_fault example_world_bad_pointer
           (initial example_db) 2 "missing object").
  reflexivity.
Defined.

Lemma trackedFromExportFilter_includes_then_excludes_witness :
  "*.bin text -filter -merge -diff"
    ∈ dedup_first (map (export_line escapeAttrPattern_spec) ["*.bin"; "*.bin"]) ∧
  "*.bin filter=lfs diff=lfs merge=lfs -text"
    ∈ dedup_first (map (track_line escapeAttrPattern_spec) ["*.bin"]).
Proof.
  destruct (trackedFromExportFilter_includes_then_excludes escapeAttrPattern_spec
              (mkFilter ["*.bin"; "*.bin"] ["*.bin"]) (initial ∅))
    as [_ Hboth].
  destruct (Hboth "*.bin") as (Hi & He & _).
  - simpl. apply list_elem_of_here.
  - simpl. apply list_elem_of_here.
  - split; [exact Hi|exact He].
Defined.

Lemma trackedFromExportFilter_bounds_witness :
  (length ["*.bin text -filter -merge -diff";
           "*.bin filter=lfs diff=lfs merge=lfs -text"] ≤ 2 + 1)%nat ∧
  head ["*.bin text -filter -merge -diff";
        "*.bin filter=lfs diff=lfs merge=lfs -text"]
  = Some "*.bin text -filter -merge -diff".
Proof.
  destruct (trackedFromExportFilter_bounds escapeAttrPattern_spec
              (mkFilter ["*.bin"; "*.bin"] ["*.bin"]) (initial ∅)
              (trackedFromExportFilter escapeAttrPattern_spec
                 (mkFilter ["*.bin"; "*.bin"] ["*.bin"]) (initial ∅)).2
              0 ["*.bin text -filter -merge -diff";
                 "*.bin filter=lfs diff=lfs merge=lfs -text"])
    as (Hlen & _ & Hhead).
  - reflexivity.
  - reflexivity.
  - split; [exact Hlen|]. apply (Hhead "*.bin" ["*.bin"]). reflexivity.
Defined.

Lemma BlobFn_keeps_size_witness :
  Size (mkBlob "resolved oid sha256:4d7a" 24)
  = Z.of_nat (String.length (Contents (mkBlob "resolved oid sha256:4d7a" 24))).
Proof.
  apply (BlobFn_keeps_size example_smudge (mkFilter ["*.bin"] []) "assets/a.bin"
           (mkBlob "oid sha256:4d7a" 15) (mkBlob "resolved oid sha256:4d7a" 24)
           (initial ∅) (initial ∅)); reflexivity.
Defined.

Lemma Base_of_name_witness :
  Base "assets/textures/a.bin" = "a.bin".
Proof.
  destruct (Base_of_name "a.bin") as [_ H]; [reflexivity|discriminate|].
  apply (H "assets/textures").
Defined.

Lemma Base_ignores_trailing_separator_witness :
  Base "docs/.gitattributes/" = Base "docs/.gitattributes".
Proof.
  apply (Base_ignores_trailing_separator "docs/.gitattributes"). discriminate.
Defined.

Lemma TreeCallbackFn_write_failure_witness :
  ∃ s', TreeCallbackFn example_object_id example_write_fault_full 0 "/"
          example_tree example_store = (Val (Err "disk full"), s') ∧
        objects s' = example_db.
Proof.
  destruct (TreeCallbackFn_write_failure example_object_id
              example_write_fault_full 0 example_tree example_store
              example_canonical (lines example_attributes) "disk full")
    as (s' & Hrun & Hobjects & _).
  - reflexivity.
  - apply (attribute_file_present example_store example_tree
             (mkTreeEntry ".gitattributes" 33188 "attributes") example_attributes);
      reflexivity.
  - reflexivity.
  - exists s'. split; [exact Hrun|exact Hobjects].
Defined.

Lemma TreeCallbackFn_idempotent_witness :
  ∃ t' s' s'',
    TreeCallbackFn example_object_id example_write_fault 0 "/"
      example_tree example_store = (Val (Ok t'), s') ∧
    TreeCallbackFn example_object_id example_write_fault 0 "/" t' s'
    = (Val (Ok t'), s'') ∧
    objects s'' = objects s'.
Proof.
  destruct (TreeCallbackFn example_object_id example_write_fault 0 "/"
              example_tree example_store) as [[[t'|err]|status msg] s'] eqn:Hrun;
    [|vm_compute in Hrun; discriminate Hrun..].
  destruct (TreeCallbackFn_idempotent example_object_id example_write_fault
              0 example_tree t' example_store s' example_canonical
              (lines example_attributes))
    as (s'' & Hagain & Hobjects).
  - reflexivity.
  - apply (attribute_file_present example_store example_tree
             (mkTreeEntry ".gitattributes" 33188 "attributes") example_attributes);
      reflexivity.
  - repeat constructor.
  - exact Hrun.
  - exists t', s', s''. split; [reflexivity|]. split; [exact Hagain|exact Hobjects].
Defined.

Lemma return_means_success_witness :
  refs_updated (migrateExportCommand escapeAttrPattern_spec example_smudge
                  example_object_id example_write_fault example_world
                  (initial example_db)).2 = true ∧
  trace (migrateExportCommand escapeAttrPattern_spec example_smudge
           example_object_id example_write_fault example_world
           (initial example_db)).2 = [EvRewrite; EvCheckout].
Proof.
  destruct (return_means_success escapeAttrPattern_spec example_smudge
              example_object_id example_write_fault example_world
              (initial example_db))
    as (_ & _ & Hrefs & _ & _ & Htrace & _).
  - reflexivity.
  - split; [exact Hrefs|exact Htrace].
Defined.
